(** * Scripted support chat widgets

    A shallow embedding of the two chat widgets of the repository:

    - the generic customer-support widget (module [Support]), and
    - the Nibbly drone-delivery widget (module [Nibbly],
      [src/components/ChatBot.tsx]).

    Both are React components made of a response resolver
    ([getBotResponse]) and a conversation state manager
    ([handleSendMessage] and the callback it hands to [setTimeout]).

    Modelling conventions.

    - A JavaScript string is the list of its UTF-16 code units
      ([jsstring]).  [trim], [includes], the order-number regular
      expression and [===] act on code units as ECMAScript defines
      them.  [toLowerCase] maps the ASCII letters, U+212A (to k) and
      U+0130 (to i and U+0307) as Unicode does; what Unicode's case
      tables do to every other code unit outside ASCII is a parameter
      ([CaseTable]) of which only one fact is used: the result is not
      empty and lies outside ASCII.
    - [Date.now()] is a [Z] (milliseconds); a handler reads the clock
      once, and that reading is an argument of the handler.
    - The hooks [messages], [inputValue], [isTyping] are the fields of a
      record; the callbacks registered with [setTimeout] are kept, in
      registration order, in the field [timers].  React applies the
      setter calls of one handler together, so a handler is one state
      transformer. *)

From Stdlib Require Import String Ascii List NArith ZArith QArith Lia Bool DecimalString.
From Stdlib Require DecimalPos DecimalZ.
Import ListNotations.
Local Open Scope string_scope.
Local Open Scope N_scope.
Local Open Scope list_scope.

(** ** JavaScript strings *)

Module JsString.

(** A UTF-16 code unit. *)
Definition codeUnit : Type := N.

Definition jsstring : Type := list codeUnit.

(** The code units of a literal that the source writes in ASCII. *)
Definition js (s : string) : jsstring :=
  map N_of_ascii (list_ascii_of_string s).

Definition isUpper (c : codeUnit) : bool := (65 <=? c) && (c <=? 90).

Definition isLower (c : codeUnit) : bool := (97 <=? c) && (c <=? 122).

(** The class [\d] of a regular expression without the [u] flag. *)
Definition isDigit (c : codeUnit) : bool := (48 <=? c) && (c <=? 57).

(** The letter N, in either case: what [n] matches under the [i] flag. *)
Definition isN (c : codeUnit) : bool := (c =? 110) || (c =? 78).

(** What [trim] strips, the white space and line terminators of
    ECMAScript: TAB, LF, VT, FF, CR, SP, U+00A0, U+1680, U+2000 to
    U+200A, U+2028, U+2029, U+202F, U+205F, U+3000 and U+FEFF. *)
Definition isSpace (c : codeUnit) : bool :=
  ((9 <=? c) && (c <=? 13)) || (c =? 32) || (c =? 0xA0) || (c =? 0x1680) ||
  ((0x2000 <=? c) && (c <=? 0x200A)) || (c =? 0x2028) || (c =? 0x2029) ||
  (c =? 0x202F) || (c =? 0x205F) || (c =? 0x3000) || (c =? 0xFEFF).

Definition isOther (c : codeUnit) : bool :=
  (128 <=? c) && negb (c =? 0x130) && negb (c =? 0x212A).

(** What Unicode's case tables make of a code unit outside ASCII other
    than U+212A and U+0130, given the code units before and after it (a
    surrogate is mapped with its partner, a capital sigma by what stands
    around it).  The tables are data of the engine, not of the program,
    and are left open; what is used of them is this: the lower-case form
    of such a code unit is not empty and has no ASCII code unit (in
    Unicode's data U+212A and U+0130 are the only characters outside
    ASCII whose lower-case form has one). *)
Class CaseTable : Type := {
  lowerOther : jsstring -> codeUnit -> jsstring -> jsstring;
  lowerOther_nonempty :
    forall before c after, isOther c = true -> lowerOther before c after <> [];
  lowerOther_high :
    forall before c after,
      isOther c = true ->
      forallb (fun u => 128 <=? u) (lowerOther before c after) = true
}.

(** The tables of an engine that changes no code unit outside ASCII
    (other than U+212A and U+0130); it serves to evaluate examples. *)
Definition plainTable : CaseTable.
Proof.
  refine {| lowerOther := fun _ c _ => [c] |}.
  - intros before c after _. discriminate.
  - intros before c after H. unfold isOther in H. simpl.
    destruct (128 <=? c); [reflexivity | discriminate H].
Defined.

(** The lower-case form of the code unit [c] standing between [before]
    and [after]. *)
Definition lowerUnit {T : CaseTable} (before : jsstring) (c : codeUnit)
           (after : jsstring) : jsstring :=
  if isUpper c then [c + 32]
  else if c <? 128 then [c]
  else if c =? 0x212A then [107]
  else if c =? 0x130 then [105; 0x307]
  else lowerOther before c after.

Fixpoint lowerFrom {T : CaseTable} (before s : jsstring) : jsstring :=
  match s with
  | [] => []
  | c :: r => lowerUnit before c r ++ lowerFrom (before ++ [c]) r
  end.

Definition toLowerCase {T : CaseTable} (s : jsstring) : jsstring :=
  lowerFrom [] s.

(** [toUpperCase] on text written in ASCII.  The component calls it on
    an order-number match only, which is the letter n and three digits. *)
Definition upperUnit (c : codeUnit) : codeUnit :=
  if isLower c then c - 32 else c.

Definition toUpperCase (s : jsstring) : jsstring := map upperUnit s.

Fixpoint trimStart (s : jsstring) : jsstring :=
  match s with
  | [] => []
  | c :: r => if isSpace c then trimStart r else s
  end.

Fixpoint trimEnd (s : jsstring) : jsstring :=
  match s with
  | [] => []
  | c :: r =>
      match trimEnd r with
      | [] => if isSpace c then [] else [c]
      | r' => c :: r'
      end
  end.

Definition trim (s : jsstring) : jsstring := trimEnd (trimStart s).

(** [key] occurs at the start of [s]. *)
Fixpoint startsWith (key s : jsstring) : bool :=
  match key, s with
  | [], _ => true
  | _ :: _, [] => false
  | k :: key', c :: s' => (k =? c) && startsWith key' s'
  end.

(** [s.includes(key)]: [key] occurs somewhere in [s]. *)
Fixpoint includes (key s : jsstring) : bool :=
  startsWith key s ||
  match s with
  | [] => false
  | _ :: s' => includes key s'
  end.

(** [a === b] on strings. *)
Fixpoint strictEq (a b : jsstring) : bool :=
  match a, b with
  | [], [] => true
  | x :: a', y :: b' => (x =? y) && strictEq a' b'
  | _, _ => false
  end.

(** A string used as a condition: only the empty string is falsy. *)
Definition truthy (s : jsstring) : bool :=
  match s with
  | [] => false
  | _ :: _ => true
  end.

(** [a || b] where [a] may be [undefined]. *)
Definition orElse (a : option jsstring) (b : jsstring) : jsstring :=
  match a with
  | Some t => if truthy t then t else b
  | None => b
  end.

(** [n.toString()] and [${n}] for an integer [n]. *)
Definition numToString (n : Z) : jsstring :=
  js (NilZero.string_of_int (Z.to_int n)).

Definition nl : jsstring := [10].

End JsString.

Import JsString.

(** ** The rule table walk shared by both widgets

    [for (const [key, response] of Object.entries(botResponses))
       if (message.includes(key)) return response;]

    The keys of both tables are not integer-like, so [Object.entries]
    lists them in the order they are written. *)

Fixpoint firstMatch (entries : list (jsstring * jsstring)) (message : jsstring)
  : option jsstring :=
  match entries with
  | [] => None
  | (key, response) :: rest =>
      if includes key message then Some response else firstMatch rest message
  end.

(** ** Conversation state manager, shared by both widgets

    [handleSendMessage] and the [setTimeout] callback are the same text
    in both components; only the resolver and the greeting differ. *)

Inductive Sender := user | bot.

Record Message := {
  id : jsstring;
  text : jsstring;
  sender : Sender;
  timestamp : Z
}.

(** A callback registered by [setTimeout(..., 1500)]: the instant from
    which it may run and the [textToSend] its closure captured. *)
Record Timer := { due : Z; captured : jsstring }.

Record State := {
  messages : list Message;
  inputValue : jsstring;
  isTyping : bool;
  timers : list Timer
}.

Section Manager.

Variable getBotResponse : jsstring -> jsstring.
Variable greeting : jsstring.

(** The initial values of the hooks. *)
Definition initial (now : Z) : State :=
  {| messages := [ {| id := js "1"; text := greeting; sender := bot; timestamp := now |} ];
     inputValue := [];
     isTyping := false;
     timers := [] |}.

Definition handleSendMessage (messageText : option jsstring) (now : Z) (st : State)
  : State :=
  let textToSend := orElse messageText (trim (inputValue st)) in
  if negb (truthy textToSend) then st
  else
    let userMessage :=
      {| id := numToString now; text := textToSend; sender := user; timestamp := now |} in
    {| messages := messages st ++ [userMessage];
       inputValue := [];
       isTyping := true;
       timers := timers st ++ [ {| due := (now + 1500)%Z; captured := textToSend |} ] |}.

(** The body of the callback given to [setTimeout]. *)
Definition timerCallback (textToSend : jsstring) (now : Z) (st : State) : State :=
  let botResponse :=
    {| id := numToString (now + 1); text := getBotResponse textToSend;
       sender := bot; timestamp := now |} in
  {| messages := messages st ++ [botResponse];
     inputValue := inputValue st;
     isTyping := false;
     timers := timers st |}.

(** The event loop runs the oldest registered callback once its delay
    has elapsed; nothing runs before that. *)
Definition fireTimer (now : Z) (st : State) : option State :=
  match timers st with
  | [] => None
  | t :: rest =>
      if (due t <=? now)%Z
      then Some (timerCallback (captured t) now
                   {| messages := messages st; inputValue := inputValue st;
                      isTyping := isTyping st; timers := rest |})
      else None
  end.

(** [onChange] of the input: [setInputValue(e.target.value)]. *)
Definition setInputValue (v : jsstring) (st : State) : State :=
  {| messages := messages st; inputValue := v;
     isTyping := isTyping st; timers := timers st |}.

(** [handleKeyPress]. *)
Definition handleKeyPress (key : jsstring) (shiftKey : bool) (now : Z) (st : State)
  : State :=
  if strictEq key (js "Enter") && negb shiftKey
  then handleSendMessage None now st
  else st.

(** What the user can do with the rendered controls. *)
Inductive Event :=
| Change (v : jsstring)                       (* typing into the input *)
| KeyPress (key : jsstring) (shiftKey : bool) (* a key pressed in the input *)
| ClickSend                                   (* the send button *)
| ClickQuick (i : nat)                        (* the i-th quick-action button *)
| Fire.                                       (* the event loop runs a due callback *)

Variable quickActions : list jsstring.

(** The controls as the component renders them: the input has
    [disabled={isTyping}], the send button
    [disabled={!inputValue.trim() || isTyping}], and a quick-action
    button has no [disabled] attribute.  A disabled control delivers
    no event ([None]). *)
Definition dispatch (e : Event) (now : Z) (st : State) : option State :=
  match e with
  | Change v =>
      if isTyping st then None else Some (setInputValue v st)
  | KeyPress key shiftKey =>
      if isTyping st then None else Some (handleKeyPress key shiftKey now st)
  | ClickSend =>
      if negb (truthy (trim (inputValue st))) || isTyping st then None
      else Some (handleSendMessage None now st)
  | ClickQuick i =>
      match nth_error quickActions i with
      | Some query => Some (handleSendMessage (Some query) now st)
      | None => None
      end
  | Fire => fireTimer now st
  end.

(** A run of timed events; the clock never goes back. *)
Fixpoint run (clock : Z) (st : State) (trace : list (Z * Event)) : option State :=
  match trace with
  | [] => Some st
  | (now, e) :: rest =>
      if (clock <=? now)%Z then
        match dispatch e now st with
        | Some st' => run now st' rest
        | None => None
        end
      else None
  end.

End Manager.

(** ** The generic customer-support widget *)

Module Support.

Definition quickActions : list jsstring :=
  [js "track my order"; js "billing question"; js "I need help"].

Definition botResponses : list (jsstring * jsstring) :=
  [ (js "track my order", js "I'd be happy to help you track your order! Please provide your order number (usually starts with #) and I'll look it up for you right away.");
    (js "billing question", js "I can help with billing inquiries. Are you looking to update payment information, view invoices, or resolve a billing issue? Please let me know more details.");
    (js "I need help", js "I'm here to help! I can assist with order tracking, billing questions, account issues, product information, returns, and more. What specific area can I help you with today?");
    (js "hello", js "Hello! Welcome to our customer support. I'm here to help you with any questions or concerns. How can I assist you today?");
    (js "hi", js "Hi there! Thanks for reaching out. I'm your customer service assistant. What can I help you with today?");
    (js "refund", js "I understand you're looking for information about refunds. Our refund policy allows returns within 30 days of purchase. Could you please provide your order number so I can check the details for you?");
    (js "return", js "I can help you with returns! Items can be returned within 30 days in original condition. Do you have your order number handy? This will help me process your return request faster.");
    (js "cancel order", js "I can help you cancel your order if it hasn't shipped yet. Please provide your order number and I'll check the status right away.");
    (js "shipping", js "I can provide shipping information! Are you asking about shipping costs, delivery times, or tracking an existing shipment? Please let me know your specific question.");
    (js "account", js "I can help with account-related questions. Are you having trouble logging in, need to update your information, or have other account concerns?");
    (js "password", js "If you're having trouble with your password, I can guide you through resetting it. Please check your email for a password reset link, or let me know if you need me to send another one.") ].

Definition greeting : jsstring :=
  js "Hello! I'm your customer service assistant. I'm here to help with orders, billing, returns, and any other questions you might have. How can I assist you today?".

Definition orderStatusReply : jsstring :=
  js "I can help you check your order status. Please provide your order number and I'll look it up immediately.".

Definition cancelReply : jsstring :=
  js "I understand you want to cancel something. Could you specify if it's an order, subscription, or service? I'll help you with the cancellation process.".

Definition thankReply : jsstring :=
  js "You're very welcome! I'm glad I could help. Is there anything else I can assist you with today?".

Definition byeReply : jsstring :=
  js "Thank you for contacting us! Have a wonderful day and don't hesitate to reach out if you need any further assistance.".

Definition defaultReply : jsstring :=
  js "I understand your concern. Let me connect you with the right information. Could you provide more details about your specific issue? This will help me assist you better.".

(** The checks that follow the table walk. *)
Definition keywordReply (message : jsstring) : jsstring :=
  if includes (js "order") message && includes (js "status") message then orderStatusReply
  else if includes (js "cancel") message || includes (js "cancelled") message then cancelReply
  else if includes (js "thank") message then thankReply
  else if includes (js "bye") message || includes (js "goodbye") message then byeReply
  else defaultReply.

Definition getBotResponse {T : CaseTable} (userMessage : jsstring) : jsstring :=
  let message := toLowerCase userMessage in
  match firstMatch botResponses message with
  | Some response => response
  | None => keywordReply message
  end.

(** *** The component

    This widget is always shown: its controls are those of
    [dispatch]. *)

Definition start (now : Z) : State := initial greeting now.

Definition step {T : CaseTable} (e : Event) (now : Z) (st : State) : option State :=
  dispatch getBotResponse quickActions e now st.

Definition exec {T : CaseTable} (clock : Z) (st : State) (trace : list (Z * Event))
  : option State :=
  run getBotResponse quickActions clock st trace.

End Support.

(** ** The Nibbly drone-delivery widget *)

Module Nibbly.

Record DroneLocation := { lat : Q; lng : Q; address : jsstring }.

Record DroneData := { location : DroneLocation; eta : Z; status : jsstring }.

Definition quickActions : list jsstring :=
  [js "track my order"; js "wrong order"; js "I need help"].

Definition droneLocations : list (jsstring * DroneData) :=
  [ (js "N001", {| location := {| lat := 40.7505%Q; lng := (-73.9934)%Q;
                                  address := js "Near Washington Square Park" |};
                   eta := 4; status := js "In Transit" |});
    (js "N002", {| location := {| lat := 40.7614%Q; lng := (-73.9776)%Q;
                                  address := js "Above Union Square" |};
                   eta := 7; status := js "In Transit" |});
    (js "N003", {| location := {| lat := 40.7831%Q; lng := (-73.9712)%Q;
                                  address := js "Central Park South" |};
                   eta := 12; status := js "Preparing for delivery" |}) ].

(** [droneLocations[orderNum]]; [undefined] is [None].  The key asked
    for is an order code in upper case, never a name that the prototype
    of the object defines. *)
Fixpoint lookup (orderNum : jsstring) (table : list (jsstring * DroneData))
  : option DroneData :=
  match table with
  | [] => None
  | (k, d) :: rest => if strictEq k orderNum then Some d else lookup orderNum rest
  end.

(** The characters the source text has where a pictogram was meant:
    U+F8FF U+00FC U+00F6 U+00C5 (drone), U+F8FF U+00FC U+00EC U+00E7
    (pin), U+201A U+00E8 U+221E (clock) and U+F8FF U+00FC U+00EC U+00B6
    (parcel). *)
Definition glyphDrone : jsstring := [0xF8FF; 0xFC; 0xF6; 0xC5].

Definition glyphPin : jsstring := [0xF8FF; 0xFC; 0xEC; 0xE7].

Definition glyphClock : jsstring := [0x201A; 0xE8; 0x221E].

Definition glyphParcel : jsstring := [0xF8FF; 0xFC; 0xEC; 0xB6].

Definition botResponses : list (jsstring * jsstring) :=
  [ (js "track my order", js "I'll help you track your Nibbly drone delivery! Please provide your order number (format: N001, N002, etc.) and I'll show you exactly where your drone is in Lower Manhattan.");
    (js "wrong order", js "Oh no! I'm sorry your order isn't correct. Please provide your order number and tell me what's wrong - we'll get this fixed right away and send out a replacement drone if needed.");
    (js "I need help", js "Hi! I'm here to help with your Nibbly drone delivery. I can track your drone's location, estimate delivery time, help with incorrect orders, or answer any questions about our service in Lower Manhattan!");
    (js "hello", js "Hello! Welcome to Nibbly - Lower Manhattan's fastest drone delivery service! " ++ glyphDrone ++ js " How can I help you today?");
    (js "hi", js "Hi there! Thanks for choosing Nibbly for your delivery needs. I can track your drone, help with order issues, or answer any questions!");
    (js "refund", js "I understand you'd like a refund. For drone deliveries, we offer full refunds if there's an issue with your order. Please provide your order number and I'll process this for you.");
    (js "cancel order", js "I can help cancel your order if the drone hasn't taken off yet. Please provide your order number and I'll check if we can still cancel it.");
    (js "delivery time", js "Our drones typically deliver within 15 minutes anywhere in Lower Manhattan! Weather conditions may add a few extra minutes for safety.");
    (js "location", js "We serve all of Lower Manhattan from Battery Park to 14th Street. Our drones launch from our hub near the Brooklyn Bridge and can reach you super quickly!");
    (js "how it works", js "Simple! Order through our app, our drone picks up your items from local partners, and flies directly to your location. You'll get real-time tracking the whole way!") ].

Definition greeting : jsstring :=
  js "Hi! I'm your Nibbly support assistant. I can help track your drone delivery, handle order issues, or answer questions about our service in Lower Manhattan! " ++ glyphDrone.

(** [\d{n}] tried at the start of [s]: the [n] digits, if they are there. *)
Fixpoint digits (n : nat) (s : jsstring) : option jsstring :=
  match n with
  | O => Some []
  | S n' =>
      match s with
      | d :: r => if isDigit d then option_map (cons d) (digits n' r) else None
      | [] => None
      end
  end.

(** The order-number pattern [/n\d{3}/i] tried at the start of [s]. *)
Definition matchHere (s : jsstring) : option jsstring :=
  match s with
  | c :: r => if isN c then option_map (cons c) (digits 3 r) else None
  | [] => None
  end.

(** [message.match(/n\d{3}/i)]: the leftmost match, [orderMatch[0]]. *)
Fixpoint orderMatch (s : jsstring) : option jsstring :=
  match matchHere s with
  | Some m => Some m
  | None =>
      match s with
      | [] => None
      | _ :: r => orderMatch r
      end
  end.

Definition trackingFound (orderNum : jsstring) (droneData : DroneData) : jsstring :=
  glyphDrone ++ js " Found your order " ++ orderNum ++ js "!" ++ nl ++ nl ++
  glyphPin ++ js " Current location: " ++ address (location droneData) ++ nl ++
  glyphClock ++ js " ETA: " ++ numToString (eta droneData) ++ js " minutes" ++ nl ++
  glyphParcel ++ js " Status: " ++ status droneData ++ nl ++ nl ++
  js "Your drone is flying at 400ft altitude for safety. You'll get a notification when it's 1 minute away!".

Definition trackingNotFound (orderNum : jsstring) : jsstring :=
  js "I couldn't find order " ++ orderNum ++
  js ". Please double-check your order number or contact us if you think this is an error.".

Definition droneWhereReply : jsstring :=
  js "To track your drone, please provide your order number (like N001). I'll show you exactly where it is and when it will arrive!".

Definition etaReply : jsstring :=
  js "Delivery times depend on your location in Lower Manhattan. Please share your order number and I'll give you the exact ETA!".

Definition thankReply : jsstring :=
  js "You're very welcome! Enjoy your Nibbly delivery! " ++ glyphDrone ++ js " Anything else I can help with?".

Definition byeReply : jsstring :=
  js "Thanks for using Nibbly! Have a great day and don't hesitate to reach out if you need anything! " ++ glyphDrone.

Definition defaultReply : jsstring :=
  js "I'm here to help with your Nibbly drone delivery! I can track your order, help with issues, or answer questions. What can I assist you with?".

(** The checks that follow the table walk. *)
Definition keywordReply (message : jsstring) : jsstring :=
  if includes (js "drone") message &&
     (includes (js "where") message || includes (js "location") message)
  then droneWhereReply
  else if includes (js "eta") message || includes (js "when") message ||
          includes (js "arrive") message
  then etaReply
  else if includes (js "thank") message then thankReply
  else if includes (js "bye") message || includes (js "goodbye") message then byeReply
  else defaultReply.

(** The reply to a recognised order number. *)
Definition trackingReply (orderNum : jsstring) : jsstring :=
  match lookup orderNum droneLocations with
  | Some droneData => trackingFound orderNum droneData
  | None => trackingNotFound orderNum
  end.

Definition getBotResponse {T : CaseTable} (userMessage : jsstring) : jsstring :=
  let message := toLowerCase userMessage in
  match orderMatch message with
  | Some m => trackingReply (toUpperCase m)
  | None =>
      match firstMatch botResponses message with
      | Some response => response
      | None => keywordReply message
      end
  end.

(** *** The component

    The Nibbly widget adds the hooks [isOpen] and [isMinimized]: closed,
    it renders a launcher button only; open, it renders a header with a
    minimize and a close button and, unless minimized, the quick
    actions, the messages and the input.  A registered timeout callback
    runs whatever is shown. *)

Record Widget := { chat : State; isOpen : bool; isMinimized : bool }.

Inductive UiEvent :=
| Launcher            (* setIsOpen(true) *)
| Minimize            (* setIsMinimized(!isMinimized) *)
| Close               (* setIsOpen(false) *)
| Chat (e : Event).

Definition start (now : Z) : Widget :=
  {| chat := initial greeting now; isOpen := false; isMinimized := false |}.

Definition withChat (w : Widget) (st : State) : Widget :=
  {| chat := st; isOpen := isOpen w; isMinimized := isMinimized w |}.

Definition step {T : CaseTable} (e : UiEvent) (now : Z) (w : Widget) : option Widget :=
  match e with
  | Launcher =>
      if isOpen w then None
      else Some {| chat := chat w; isOpen := true; isMinimized := isMinimized w |}
  | Minimize =>
      if isOpen w
      then Some {| chat := chat w; isOpen := true; isMinimized := negb (isMinimized w) |}
      else None
  | Close =>
      if isOpen w
      then Some {| chat := chat w; isOpen := false; isMinimized := isMinimized w |}
      else None
  | Chat Fire => option_map (withChat w) (fireTimer getBotResponse now (chat w))
  | Chat e =>
      if isOpen w && negb (isMinimized w)
      then option_map (withChat w) (dispatch getBotResponse quickActions e now (chat w))
      else None
  end.

Fixpoint exec {T : CaseTable} (clock : Z) (w : Widget) (trace : list (Z * UiEvent))
  : option Widget :=
  match trace with
  | [] => Some w
  | (now, e) :: rest =>
      if (clock <=? now)%Z then
        match step e now w with
        | Some w' => exec now w' rest
        | None => None
        end
      else None
  end.

End Nibbly.

(** ** The resolvers as the engine evaluates them

    A second embedding of the two resolvers, in which an evaluation may
    complete normally or throw and has the heap (the hooks of the
    component, the clock, anything else) in its reach.  Reading a member
    of [null] or [undefined] throws a [TypeError]; that is the one way
    the expressions of [getBotResponse] could fail. *)

Inductive Completion (A : Type) : Type :=
| Normal (value : A)
| Throw (error : jsstring).

Arguments Normal {A} value.
Arguments Throw {A} error.

Definition Eval (Heap A : Type) : Type := Heap -> Completion A * Heap.

Definition ret {Heap A : Type} (a : A) : Eval Heap A :=
  fun h => (Normal a, h).

Definition bind {Heap A B : Type} (m : Eval Heap A) (k : A -> Eval Heap B)
  : Eval Heap B :=
  fun h =>
    match m h with
    | (Normal a, h') => k a h'
    | (Throw e, h') => (Throw e, h')
    end.

Notation "x <- m ;; k" := (bind m (fun x => k))
  (at level 61, m at next level, right associativity).

Definition throwTypeError {Heap A : Type} : Eval Heap A :=
  fun h => (Throw (js "TypeError"), h).

(** Reading and writing what the closure can reach. *)
Definition readHeap {Heap : Type} : Eval Heap Heap :=
  fun h => (Normal h, h).

Definition writeHeap {Heap : Type} (h' : Heap) : Eval Heap unit :=
  fun _ => (Normal tt, h').

(** [object.field] and [object[0]]: a [TypeError] when [object] is [null]
    or [undefined]. *)
Definition member {Heap A B : Type} (object : option A) (field : A -> B)
  : Eval Heap B :=
  match object with
  | Some a => ret (field a)
  | None => throwTypeError
  end.

(** An object used as a condition: [null] and [undefined] are falsy. *)
Definition present {A : Type} (object : option A) : bool :=
  match object with
  | Some _ => true
  | None => false
  end.

Definition evalSupport {Heap : Type} {T : CaseTable} (userMessage : jsstring)
  : Eval Heap jsstring :=
  message <- ret (toLowerCase userMessage) ;;
  match firstMatch Support.botResponses message with
  | Some response => ret response
  | None => ret (Support.keywordReply message)
  end.

Definition evalNibbly {Heap : Type} {T : CaseTable} (userMessage : jsstring)
  : Eval Heap jsstring :=
  message <- ret (toLowerCase userMessage) ;;
  orderMatch <- ret (Nibbly.orderMatch message) ;;
  if present orderMatch then
    whole <- member orderMatch (fun m => m) ;;
    orderNum <- ret (toUpperCase whole) ;;
    droneData <- ret (Nibbly.lookup orderNum Nibbly.droneLocations) ;;
    if present droneData then
      place <- member droneData Nibbly.location ;;
      minutes <- member droneData Nibbly.eta ;;
      state <- member droneData Nibbly.status ;;
      ret (Nibbly.glyphDrone ++ js " Found your order " ++ orderNum ++ js "!" ++ nl ++ nl ++
           Nibbly.glyphPin ++ js " Current location: " ++ Nibbly.address place ++ nl ++
           Nibbly.glyphClock ++ js " ETA: " ++ numToString minutes ++ js " minutes" ++ nl ++
           Nibbly.glyphParcel ++ js " Status: " ++ state ++ nl ++ nl ++
           js "Your drone is flying at 400ft altitude for safety. You'll get a notification when it's 1 minute away!")
    else
      ret (js "I couldn't find order " ++ orderNum ++
           js ". Please double-check your order number or contact us if you think this is an error.")
  else
    match firstMatch Nibbly.botResponses message with
    | Some response => ret response
    | None => ret (Nibbly.keywordReply message)
    end.

(** ** Vocabulary of the statements *)

(** [k] occurs in [s] as a run of consecutive code units. *)
Definition Substring (k s : jsstring) : Prop :=
  exists pre post, s = pre ++ k ++ post.

(** Only white space (the empty string included). *)
Definition allSpace (s : jsstring) : bool := forallb isSpace s.

Definition hasUpper (s : jsstring) : bool := existsb isUpper s.

(** Text written in ASCII. *)
Definition asciiOnly (s : jsstring) : bool := forallb (fun u => u <? 128) s.

Fixpoint lastUnit (s : jsstring) : option codeUnit :=
  match s with
  | [] => None
  | [c] => Some c
  | _ :: r => lastUnit r
  end.

(** [k] is not empty and neither starts nor ends with white space. *)
Definition trimSafe (k : jsstring) : bool :=
  match k with
  | [] => false
  | c :: _ => negb (isSpace c)
  end &&
  match lastUnit k with
  | Some c => negb (isSpace c)
  | None => false
  end.

(** An order code as written by a user: the letter N, in either case,
    then exactly three digits. *)
Definition IsCode (m : jsstring) : Prop :=
  exists c d1 d2 d3,
    m = [c; d1; d2; d3] /\
    isN c = true /\ isDigit d1 = true /\ isDigit d2 = true /\ isDigit d3 = true.

Definition HasCode (s : jsstring) : Prop :=
  exists m, IsCode m /\ Substring m s.

(** [m] is the order code of [s] that starts first. *)
Definition LeftmostCode (s m : jsstring) : Prop :=
  exists pre post,
    s = pre ++ m ++ post /\ IsCode m /\
    forall pre' m' post',
      s = pre' ++ m' ++ post' -> IsCode m' -> (List.length pre <= List.length pre')%nat.

(** The replies of a rule table, in table order. *)
Definition replies (table : list (jsstring * jsstring)) : list jsstring :=
  map snd table.

(** [key] is the earliest trigger of [table] that occurs in [message]:
    it is at position [i] and no trigger at a position before [i] occurs. *)
Definition EarliestTrigger (table : list (jsstring * jsstring)) (message : jsstring)
           (i : nat) (key response : jsstring) : Prop :=
  nth_error table i = Some (key, response) /\
  Substring key message /\
  forall j kj rj,
    nth_error table j = Some (kj, rj) -> Substring kj message -> (i <= j)%nat.

(** Every reply [Support.getBotResponse] can choose from. *)
Definition supportReplies : list jsstring :=
  replies Support.botResponses ++
  [ Support.orderStatusReply; Support.cancelReply; Support.thankReply;
    Support.byeReply; Support.defaultReply ].

(** Every reply [Nibbly.getBotResponse] can choose from once the order
    number check has found nothing. *)
Definition nibblyReplies : list jsstring :=
  replies Nibbly.botResponses ++
  [ Nibbly.droneWhereReply; Nibbly.etaReply; Nibbly.thankReply;
    Nibbly.byeReply; Nibbly.defaultReply ].

(** The reply a table stores under a trigger. *)
Fixpoint storedUnder (key : jsstring) (table : list (jsstring * jsstring))
  : option jsstring :=
  match table with
  | [] => None
  | (k, r) :: rest => if strictEq k key then Some r else storedUnder key rest
  end.

(** [Nibbly.getBotResponse] answers [s] with the tracking reply of the
    order code of [s] that starts first, upper-cased: the found reply when
    the code is a key of [droneLocations], the not-found reply otherwise;
    in both cases none of the table, keyword and default replies. *)
Definition TrackingAnswer {T : CaseTable} (s : jsstring) : Prop :=
  exists x,
    LeftmostCode s x /\
    ((exists droneData,
         Nibbly.lookup (toUpperCase x) Nibbly.droneLocations = Some droneData /\
         Nibbly.getBotResponse s = Nibbly.trackingFound (toUpperCase x) droneData) \/
     (Nibbly.lookup (toUpperCase x) Nibbly.droneLocations = None /\
      Nibbly.getBotResponse s = Nibbly.trackingNotFound (toUpperCase x))) /\
    ~ In (Nibbly.getBotResponse s) nibblyReplies.

(** No delayed reply is outstanding. *)
Definition Idle (st : State) : Prop :=
  isTyping st = false /\ timers st = [].

(** Two texts that differ only in what stands for the code units outside
    ASCII: where one has a run of such code units the other has a run,
    possibly another one. *)
Inductive SameAscii : jsstring -> jsstring -> Prop :=
| SameAscii_nil : SameAscii [] []
| SameAscii_unit u l1 l2 : SameAscii l1 l2 -> SameAscii (u :: l1) (u :: l2)
| SameAscii_run e1 e2 l1 l2 :
    e1 <> [] -> e2 <> [] ->
    forallb (fun u => 128 <=? u) e1 = true ->
    forallb (fun u => 128 <=? u) e2 = true ->
    SameAscii l1 l2 -> SameAscii (e1 ++ l1) (e2 ++ l2).

(** ** Vocabulary of the further properties *)

Definition isUser (m : Message) : bool :=
  match sender m with
  | user => true
  | bot => false
  end.

Definition isBot (m : Message) : bool := negb (isUser m).

(** The texts of the user's messages, and of the bot's, in order. *)
Definition userTexts (st : State) : list jsstring :=
  map text (filter isUser (messages st)).

Definition botTexts (st : State) : list jsstring :=
  map text (filter isBot (messages st)).

(** The bot has said the greeting and then answered, in order, the first
    user messages; the user messages not yet answered are the texts the
    registered callbacks hold, in order. *)
Definition RepliesInOrder (resolve : jsstring -> jsstring) (greeting : jsstring)
           (st : State) : Prop :=
  exists answered,
    userTexts st = answered ++ map captured (timers st) /\
    botTexts st = greeting :: map resolve answered.

(** The message the callback [t] appends when it runs at [now]. *)
Definition botMessage (resolve : jsstring -> jsstring) (now : Z) (t : Timer) : Message :=
  {| id := numToString (now + 1); text := resolve (captured t);
     sender := bot; timestamp := now |}.

(** The chat events of a run of the Nibbly widget. *)
Fixpoint chatEvents (trace : list (Z * Nibbly.UiEvent)) : list (Z * Event) :=
  match trace with
  | [] => []
  | (now, Nibbly.Chat e) :: rest => (now, e) :: chatEvents rest
  | _ :: rest => chatEvents rest
  end.

(** Along the run of [trace] from [st], no quick action is clicked while
    the typing flag is set. *)
Fixpoint quickOnlyWhenIdle (resolve : jsstring -> jsstring) (quick : list jsstring)
         (st : State) (trace : list (Z * Event)) : bool :=
  match trace with
  | [] => true
  | (now, e) :: rest =>
      match e with
      | ClickQuick _ => negb (isTyping st)
      | _ => true
      end &&
      match dispatch resolve quick e now st with
      | Some st' => quickOnlyWhenIdle resolve quick st' rest
      | None => true
      end
  end.

(** Every event comes at least two milliseconds after the one before. *)
Fixpoint spaced (clock : Z) (trace : list (Z * Event)) : bool :=
  match trace with
  | [] => true
  | (now, _) :: rest => (clock + 2 <=? now)%Z && spaced now rest
  end.

(** The two states of the typing indicator as the component means them:
    nothing outstanding, or typing with exactly one reply outstanding. *)
Definition IdleOrTyping (st : State) : Prop :=
  (isTyping st = false /\ timers st = []) \/
  (isTyping st = true /\ exists t, timers st = [t]).

(** A message as the conversation should hold it: a text that is not
    empty and, for a user message, has no white space at either end. *)
Definition WellFormed (m : Message) : Prop :=
  text m <> [] /\ (sender m = user -> trimSafe (text m) = true).

(** The flag follows the newest message, and is never set with nothing
    outstanding. *)
Definition FlagFollowsNewest (st : State) : Prop :=
  (exists front m, messages st = front ++ [m] /\ isTyping st = isUser m) /\
  (isTyping st = true -> timers st <> []).

(** The numbers [zs] increase strictly, starting above [lo]. *)
Fixpoint increasingFrom (lo : Z) (zs : list Z) : Prop :=
  match zs with
  | [] => True
  | z :: rest => (lo < z)%Z /\ increasingFrom z rest
  end.

(** The ids of the conversation are the decimal numerals of strictly
    increasing positive integers. *)
Definition IdsIncrease (st : State) : Prop :=
  exists zs, map id (messages st) = map numToString zs /\ increasingFrom 0%Z zs.


(** ** Vocabulary of the proofs *)

(** The lower-case form of [s] standing between [before] and [after]:
    [lowerFrom] with the text that follows made explicit. *)
Fixpoint lowerIn {T : CaseTable} (before s after : jsstring) : jsstring :=
  match s with
  | [] => []
  | c :: r => lowerUnit before c (r ++ after) ++ lowerIn (before ++ [c]) r after
  end.

(** The lower-case form of an ASCII code unit. *)
Definition lowerAscii (c : codeUnit) : codeUnit :=
  if isUpper c then c + 32 else c.

(** A trigger as the tables and the keyword checks have them: written in
    ASCII, without white space at either end. *)
Definition plainKey (k : jsstring) : bool := asciiOnly k && trimSafe k.

(** White space, or a code unit outside ASCII. *)
Definition edge (u : codeUnit) : bool := isSpace u || (128 <=? u).

(** * Properties *)

(** ** Code units *)

Ltac plain a :=
  lazymatch a with
  | context [if _ then _ else _] => fail
  | _ => idtac
  end.

Ltac tests :=
  repeat (match goal with
          | |- context [(?a <=? ?b)] => plain a; destruct (N.leb_spec a b)
          | |- context [(?a <? ?b)] => plain a; destruct (N.ltb_spec a b)
          | |- context [(?a =? ?b)] => plain a; destruct (N.eqb_spec a b)
          end;
          cbn [andb orb negb];
          try (exfalso; lia);
          try (let H := fresh in intro H; discriminate H)).

Ltac units :=
  unfold lowerAscii, upperUnit in *;
  unfold isUpper, isLower, isDigit, isN, isSpace, isOther in *;
  tests; simpl in *; tests; simpl in *; tests;
  try discriminate; try reflexivity; try lia;
  try (intros; repeat f_equal; lia).

Lemma upperUnit_lowerAscii (c : codeUnit) : upperUnit (lowerAscii c) = upperUnit c.
Proof. units. Qed.

Lemma isN_lowerAscii (c : codeUnit) : isN c = true -> lowerAscii c = 110.
Proof. units. Qed.

Lemma isDigit_lowerAscii (c : codeUnit) : isDigit c = true -> lowerAscii c = c.
Proof. units. Qed.

Lemma isSpace_not_isN (c : codeUnit) : isSpace c = true -> isN c = false.
Proof. units. Qed.

Lemma isSpace_not_digit (c : codeUnit) : isSpace c = true -> isDigit c = false.
Proof. units. Qed.

(** ** Strings *)

Lemma strictEq_iff (a b : jsstring) : strictEq a b = true <-> a = b.
Proof.
  revert b. induction a as [|x a IH]; intros [|y b]; simpl;
    try (split; [discriminate | discriminate]); [tauto|].
  rewrite andb_true_iff, N.eqb_eq, IH. split.
  - now intros [-> ->].
  - intros [= -> ->]. now split.
Qed.

Lemma startsWith_iff (k s : jsstring) :
  startsWith k s = true <-> exists post, s = k ++ post.
Proof.
  revert s; induction k as [|x k IH]; intros s; simpl.
  - split; [intros _; now exists s | reflexivity].
  - destruct s as [|c s].
    + split; [discriminate | intros [post H]; discriminate].
    + rewrite andb_true_iff, N.eqb_eq, IH. split.
      * intros [-> [post ->]]. now exists post.
      * intros [post H]. injection H as -> ->. split; [reflexivity | now exists post].
Qed.

Lemma includes_iff (k s : jsstring) : includes k s = true <-> Substring k s.
Proof.
  unfold Substring. induction s as [|c s IH]; simpl.
  - rewrite orb_false_r, startsWith_iff. split.
    + intros [post H]. now exists [], post.
    + intros [pre [post H]]. destruct pre; [now exists post | discriminate].
  - rewrite orb_true_iff, startsWith_iff, IH. split.
    + intros [[post H] | [pre [post H]]].
      * now exists [], post.
      * exists (c :: pre), post. simpl. now rewrite H.
    + intros [pre [post H]]. destruct pre as [|x pre]; simpl in H.
      * left. now exists post.
      * right. injection H as _ ->. now exists pre, post.
Qed.

Lemma includes_false_iff (k s : jsstring) : includes k s = false <-> ~ Substring k s.
Proof.
  rewrite <- includes_iff. destruct (includes k s); split; intros; congruence.
Qed.

Lemma Substring_trans a b c : Substring a b -> Substring b c -> Substring a c.
Proof.
  intros [p1 [q1 ->]] [p2 [q2 ->]]. exists (p2 ++ p1), (q1 ++ q2).
  now rewrite <- !app_assoc.
Qed.

Lemma append_same_length (a b a' b' : jsstring) :
  a ++ b = a' ++ b' -> List.length a = List.length a' -> a = a' /\ b = b'.
Proof.
  revert a'. induction a as [|x a IH]; intros [|y a'] H Hl; simpl in *;
    try discriminate.
  - now split.
  - injection H as -> H. injection Hl as Hl.
    destruct (IH _ H Hl) as [-> ->]. now split.
Qed.

Lemma append_eq_append (a b c d : jsstring) :
  a ++ b = c ++ d ->
  (exists e, a = c ++ e /\ d = e ++ b) \/ (exists e, c = a ++ e /\ b = e ++ d).
Proof.
  revert c. induction a as [|x a IH]; intros c H.
  - right. exists c. now split.
  - destruct c as [|y c]; simpl in H.
    + left. exists (x :: a). now split.
    + injection H as -> H.
      destruct (IH _ H) as [[e [-> ->]] | [e [-> ->]]]; [left | right];
        exists e; now split.
Qed.

Lemma lastUnit_app (a b : jsstring) : b <> [] -> lastUnit (a ++ b) = lastUnit b.
Proof.
  intros Hb. induction a as [|x a IH]; [reflexivity|].
  simpl. destruct (a ++ b) eqn:E.
  - destruct a; [simpl in E; contradiction | discriminate].
  - exact IH.
Qed.

Lemma lastUnit_In (s : jsstring) c : lastUnit s = Some c -> In c s.
Proof.
  induction s as [|x s IH]; [discriminate|].
  destruct s as [|y t].
  - intros [= ->]. now left.
  - intros H. right. now apply IH.
Qed.

(** ** Lower-casing *)

Section Lowering.

Context {T : CaseTable}.

Lemma lowerFrom_lowerIn before s : lowerFrom before s = lowerIn before s [].
Proof.
  revert before. induction s as [|c r IH]; intros before; simpl; [reflexivity|].
  now rewrite app_nil_r, IH.
Qed.

Lemma lowerIn_app before s1 s2 after :
  lowerIn before (s1 ++ s2) after =
  lowerIn before s1 (s2 ++ after) ++ lowerIn (before ++ s1) s2 after.
Proof.
  revert before. induction s1 as [|c r IH]; intros before; simpl.
  - now rewrite app_nil_r.
  - rewrite IH, <- !app_assoc. simpl. reflexivity.
Qed.

(** What a code unit becomes: the same in every context unless the case
    tables decide, and then something outside ASCII. *)
Lemma lowerUnit_cases before c after :
  (isOther c = false /\
   forall before' after', lowerUnit before' c after' = lowerUnit before c after) \/
  (isOther c = true /\
   lowerUnit before c after <> [] /\
   forallb (fun u => 128 <=? u) (lowerUnit before c after) = true).
Proof.
  destruct (isOther c) eqn:Ho.
  - right. split; [reflexivity|].
    assert (E : lowerUnit before c after = lowerOther before c after).
    { unfold lowerUnit. revert Ho. units. }
    rewrite E. split; [now apply lowerOther_nonempty | now apply lowerOther_high].
  - left. split; [reflexivity|]. intros before' after'. unfold lowerUnit.
    revert Ho. units.
Qed.

Lemma lowerUnit_ascii before c after :
  isOther c = false ->
  lowerUnit before c after =
  if c =? 0x130 then [105; 0x307] else if c =? 0x212A then [107] else [lowerAscii c].
Proof. intros Ho. unfold lowerUnit. revert Ho. units. Qed.

Lemma high_units (P : codeUnit -> bool) (e : jsstring) :
  (forall u, 128 <= u -> P u = true) ->
  forallb (fun u => 128 <=? u) e = true -> forallb P e = true.
Proof.
  intros HP H. apply forallb_forall. intros u Hu.
  apply HP. apply N.leb_le. exact (proj1 (forallb_forall _ _) H u Hu).
Qed.

Lemma lowerUnit_no_upper before c after :
  forallb (fun u => negb (isUpper u)) (lowerUnit before c after) = true.
Proof.
  destruct (lowerUnit_cases before c after) as [[Ho _] | [_ [_ H]]].
  - rewrite (lowerUnit_ascii _ _ _ Ho). revert Ho. units.
  - apply high_units; [|exact H]. intros u Hu. units.
Qed.

Lemma lowerUnit_isN before c after : isN c = true -> lowerUnit before c after = [110].
Proof. intros H. unfold lowerUnit. revert H. units. Qed.

Lemma lowerUnit_not_isN before c after :
  isN c = false -> forallb (fun u => negb (isN u)) (lowerUnit before c after) = true.
Proof.
  intros Hn. destruct (lowerUnit_cases before c after) as [[Ho _] | [_ [_ H]]].
  - rewrite (lowerUnit_ascii _ _ _ Ho). revert Ho Hn. units.
  - apply high_units; [|exact H]. intros u Hu. units.
Qed.

Lemma lowerUnit_digit before c after : isDigit c = true -> lowerUnit before c after = [c].
Proof. intros H. unfold lowerUnit. revert H. units. Qed.

Lemma lowerUnit_not_digit before c after :
  isDigit c = false ->
  exists u e, lowerUnit before c after = u :: e /\ isDigit u = false.
Proof.
  intros Hd. destruct (lowerUnit_cases before c after) as [[Ho _] | [_ [Hne H]]].
  - rewrite (lowerUnit_ascii _ _ _ Ho).
    destruct (c =? 0x130); [now eexists _, _|].
    destruct (c =? 0x212A); [now eexists _, _|].
    eexists _, _. split; [reflexivity|]. revert Ho Hd. units.
  - destruct (lowerUnit before c after) as [|u e]; [contradiction|].
    exists u, e. split; [reflexivity|]. simpl in H.
    apply andb_true_iff in H as [H _]. revert H. units.
Qed.

Lemma lowerIn_no_upper before s after : hasUpper (lowerIn before s after) = false.
Proof.
  revert before. induction s as [|c r IH]; intros before; [reflexivity|].
  cbn [lowerIn]. unfold hasUpper in *. rewrite existsb_app, IH, orb_false_r.
  pose proof (lowerUnit_no_upper before c (r ++ after)) as H.
  induction (lowerUnit before c (r ++ after)) as [|u e IHe]; [reflexivity|].
  simpl in *. apply andb_true_iff in H as [Hu He].
  apply negb_true_iff in Hu. now rewrite Hu, IHe.
Qed.

Lemma toLowerCase_no_upper s : hasUpper (toLowerCase s) = false.
Proof. unfold toLowerCase. rewrite lowerFrom_lowerIn. apply lowerIn_no_upper. Qed.

(** A trigger with an upper-case letter occurs in no lower-cased text. *)
Lemma upper_key_never_included (k s : jsstring) :
  hasUpper k = true -> includes k (toLowerCase s) = false.
Proof.
  intros Hk. apply includes_false_iff. intros [pre [post H]].
  pose proof (toLowerCase_no_upper s) as Hs.
  unfold hasUpper in *. rewrite H, !existsb_app, Hk, orb_true_r in Hs. discriminate.
Qed.

End Lowering.

(** ** The rule table walk *)

Lemma firstMatch_earliest table message i key response :
  EarliestTrigger table message i key response ->
  firstMatch table message = Some response.
Proof.
  revert i. induction table as [|[k0 r0] rest IH]; intros i [Hn [Hs He]].
  - destruct i; discriminate.
  - simpl. destruct i as [|i]; simpl in Hn.
    + injection Hn as -> ->. apply includes_iff in Hs. now rewrite Hs.
    + destruct (includes k0 message) eqn:H0.
      * apply includes_iff in H0. specialize (He 0%nat k0 r0 eq_refl H0). lia.
      * apply (IH i). split; [exact Hn|]. split; [exact Hs|].
        intros j kj rj Hj Hsj. specialize (He (S j) kj rj Hj Hsj). lia.
Qed.

Lemma firstMatch_Some table message response :
  firstMatch table message = Some response ->
  exists i key, EarliestTrigger table message i key response.
Proof.
  induction table as [|[k0 r0] rest IH]; simpl; [discriminate|].
  destruct (includes k0 message) eqn:H0.
  - intros H. injection H as ->. exists 0%nat, k0. split; [reflexivity|]. split.
    + now apply includes_iff.
    + intros; lia.
  - intros H. destruct (IH H) as [i [key [Hn [Hs He]]]].
    exists (S i), key. split; [exact Hn|]. split; [exact Hs|].
    intros [|j] kj rj Hj Hsj; simpl in Hj.
    + injection Hj as -> ->. apply includes_iff in Hsj. congruence.
    + specialize (He j kj rj Hj Hsj). lia.
Qed.

Lemma firstMatch_In table message response :
  firstMatch table message = Some response -> In response (replies table).
Proof.
  intros H. destruct (firstMatch_Some _ _ _ H) as [i [key [Hn _]]].
  apply nth_error_In in Hn. unfold replies.
  change response with (snd (key, response)). now apply in_map.
Qed.

Lemma firstMatch_None table message :
  firstMatch table message = None ->
  forall key response, In (key, response) table -> ~ Substring key message.
Proof.
  induction table as [|[k0 r0] rest IH]; simpl; [intros _ ? ? []|].
  destruct (includes k0 message) eqn:H0; [discriminate|].
  intros H key response [Heq | Hin].
  - injection Heq as <- <-. now apply includes_false_iff.
  - now apply (IH H key response).
Qed.

Lemma firstMatch_None_intro table message :
  (forall key response, In (key, response) table -> ~ Substring key message) ->
  firstMatch table message = None.
Proof.
  induction table as [|[k0 r0] rest IH]; intros H; [reflexivity|].
  simpl. destruct (includes k0 message) eqn:H0.
  - exfalso. apply (H k0 r0); [now left | now apply includes_iff].
  - apply IH. intros key response Hin. apply (H key response). now right.
Qed.

(** The reply of a walk was stored under a trigger that occurs in the text. *)
Lemma firstMatch_key table message response :
  firstMatch table message = Some response ->
  exists key, In (key, response) table /\ includes key message = true.
Proof.
  intros H. destruct (firstMatch_Some _ _ _ H) as [i [key [Hn [Hs _]]]].
  exists key. split; [now apply nth_error_In in Hn | now apply includes_iff].
Qed.

(** ** The order-number pattern *)

Lemma digits_Some n s m :
  Nibbly.digits n s = Some m ->
  List.length m = n /\ forallb isDigit m = true /\ exists post, s = m ++ post.
Proof.
  revert s m. induction n as [|n IH]; intros s m; simpl.
  - intros [= <-]. split; [reflexivity|]. split; [reflexivity|]. now exists s.
  - destruct s as [|d r]; [discriminate|].
    destruct (isDigit d) eqn:Hd; [|discriminate].
    destruct (Nibbly.digits n r) as [m0|] eqn:Hm; [|discriminate].
    intros [= <-]. destruct (IH _ _ Hm) as [Hl [Hf [post ->]]].
    split; [simpl; now rewrite Hl|]. split; [simpl; now rewrite Hd, Hf|].
    now exists post.
Qed.

Lemma digits_lowerAscii m : forallb isDigit m = true -> map lowerAscii m = m.
Proof.
  induction m as [|d m IH]; simpl; [reflexivity|].
  intros H. apply andb_true_iff in H as [Hd Hm].
  now rewrite (isDigit_lowerAscii _ Hd), (IH Hm).
Qed.

Lemma matchHere_Some s m :
  Nibbly.matchHere s = Some m -> IsCode m /\ exists post, s = m ++ post.
Proof.
  unfold Nibbly.matchHere. destruct s as [|c r]; [discriminate|].
  destruct (isN c) eqn:Hc; [|discriminate].
  destruct (Nibbly.digits 3 r) as [m0|] eqn:Hm; [|discriminate].
  intros [= <-]. destruct (digits_Some _ _ _ Hm) as [Hl [Hf [post ->]]].
  destruct m0 as [|d1 [|d2 [|d3 [|? ?]]]]; try discriminate.
  simpl in Hf. apply andb_true_iff in Hf as [H1 Hf].
  apply andb_true_iff in Hf as [H2 Hf]. apply andb_true_iff in Hf as [H3 _].
  split.
  - now exists c, d1, d2, d3.
  - now exists post.
Qed.

Lemma matchHere_None s :
  Nibbly.matchHere s = None -> forall m post, IsCode m -> s <> m ++ post.
Proof.
  intros H m post [c [d1 [d2 [d3 [-> [Hc [H1 [H2 H3]]]]]]]] ->.
  simpl in H. rewrite Hc, H1, H2, H3 in H. discriminate.
Qed.

Lemma orderMatch_leftmost s m :
  Nibbly.orderMatch s = Some m -> LeftmostCode s m.
Proof.
  induction s as [|c r IH].
  - discriminate.
  - cbn [Nibbly.orderMatch]. destruct (Nibbly.matchHere (c :: r)) as [m0|] eqn:Hm.
    + intros H. injection H as ->. destruct (matchHere_Some _ _ Hm) as [Hc [post Hp]].
      exists [], post. split; [exact Hp|]. split; [exact Hc|]. intros; simpl; lia.
    + intros H. destruct (IH H) as [pre [post [Hr [Hc Hl]]]].
      exists (c :: pre), post. split; [simpl; now rewrite Hr|]. split; [exact Hc|].
      intros pre' m' post' Hs Hc'. destruct pre' as [|x pre']; simpl in Hs.
      * exfalso. exact (matchHere_None _ Hm _ _ Hc' Hs).
      * injection Hs as _ Hs. specialize (Hl pre' m' post' Hs Hc'). simpl. lia.
Qed.

Lemma orderMatch_None s : Nibbly.orderMatch s = None -> ~ HasCode s.
Proof.
  induction s as [|c r IH]; cbn [Nibbly.orderMatch].
  - intros _ [m [[c [d1 [d2 [d3 [-> _]]]]] [pre [post H]]]].
    destruct pre; discriminate.
  - destruct (Nibbly.matchHere (c :: r)) as [m0|] eqn:Hm; [discriminate|].
    intros H [m [Hc [pre [post Hs]]]]. destruct pre as [|x pre]; simpl in Hs.
    + exact (matchHere_None _ Hm _ _ Hc Hs).
    + injection Hs as _ Hs. apply (IH H). exists m. split; trivial. now exists pre, post.
Qed.

Lemma IsCode_length m : IsCode m -> List.length m = 4%nat.
Proof. now intros [c [d1 [d2 [d3 [-> _]]]]]. Qed.

Lemma LeftmostCode_unique s x y : LeftmostCode s x -> LeftmostCode s y -> x = y.
Proof.
  intros [p1 [q1 [H1 [C1 L1]]]] [p2 [q2 [H2 [C2 L2]]]].
  pose proof (L1 _ _ _ H2 C2) as A. pose proof (L2 _ _ _ H1 C1) as B.
  rewrite H1 in H2. apply append_same_length in H2; [|lia].
  destruct H2 as [_ H2]. apply append_same_length in H2.
  - tauto.
  - now rewrite (IsCode_length _ C1), (IsCode_length _ C2).
Qed.

Lemma LeftmostCode_HasCode s x : LeftmostCode s x -> HasCode s.
Proof. intros [pre [post [H [C _]]]]. exists x. split; trivial. now exists pre, post. Qed.

Lemma HasCode_orderMatch_raw s : HasCode s <-> exists x, Nibbly.orderMatch s = Some x.
Proof.
  split.
  - intros H. destruct (Nibbly.orderMatch s) as [x|] eqn:Hx; [now exists x|].
    exfalso. exact (orderMatch_None _ Hx H).
  - intros [x Hx]. exact (LeftmostCode_HasCode _ _ (orderMatch_leftmost _ _ Hx)).
Qed.

Lemma orderMatch_skip e l :
  forallb (fun u => negb (isN u)) e = true ->
  Nibbly.orderMatch (e ++ l) = Nibbly.orderMatch l.
Proof.
  induction e as [|u e IH]; [reflexivity|].
  simpl. intros H. apply andb_true_iff in H as [Hu He].
  apply negb_true_iff in Hu. rewrite Hu. exact (IH He).
Qed.

Lemma toUpperCase_lowerAscii m : toUpperCase (map lowerAscii m) = toUpperCase m.
Proof.
  unfold toUpperCase. rewrite map_map. apply map_ext. apply upperUnit_lowerAscii.
Qed.

Section OrderCodes.

Context {T : CaseTable}.

Lemma digits_lowerFrom n before r :
  Nibbly.digits n (lowerFrom before r) = Nibbly.digits n r.
Proof.
  revert before r. induction n as [|n IH]; intros before r; [reflexivity|].
  destruct r as [|d r]; [reflexivity|].
  cbn [lowerFrom]. destruct (isDigit d) eqn:Hd.
  - rewrite (lowerUnit_digit _ _ _ Hd). simpl. now rewrite Hd, IH.
  - destruct (lowerUnit_not_digit before d r Hd) as [u [e [-> Hu]]].
    simpl. now rewrite Hu, Hd.
Qed.

(** The scan of the lower-cased text finds the code the scan of the text
    itself finds, in lower case. *)
Lemma orderMatch_lowerFrom before s :
  Nibbly.orderMatch (lowerFrom before s) =
  option_map (map lowerAscii) (Nibbly.orderMatch s).
Proof.
  revert before. induction s as [|c r IH]; intros before; [reflexivity|].
  cbn [lowerFrom]. destruct (isN c) eqn:Hc.
  - rewrite (lowerUnit_isN _ _ _ Hc). cbn [app Nibbly.orderMatch Nibbly.matchHere].
    rewrite Hc, digits_lowerFrom. change (isN 110) with true. cbn iota.
    destruct (Nibbly.digits 3 r) as [m|] eqn:Hm; simpl.
    + destruct (digits_Some _ _ _ Hm) as [_ [Hf _]].
      now rewrite (isN_lowerAscii _ Hc), (digits_lowerAscii _ Hf).
    + apply IH.
  - rewrite orderMatch_skip by now apply lowerUnit_not_isN.
    rewrite IH. cbn [Nibbly.orderMatch Nibbly.matchHere]. now rewrite Hc.
Qed.

Lemma IsCode_toLowerCase x : IsCode x -> toLowerCase x = map lowerAscii x.
Proof.
  intros [c [d1 [d2 [d3 [-> [Hc [H1 [H2 H3]]]]]]]].
  unfold toLowerCase. cbn [lowerFrom].
  rewrite (lowerUnit_isN _ _ _ Hc), !lowerUnit_digit by assumption.
  simpl. now rewrite (isN_lowerAscii _ Hc), !isDigit_lowerAscii by assumption.
Qed.

Lemma HasCode_orderMatch s :
  HasCode s <-> exists m, Nibbly.orderMatch (toLowerCase s) = Some m.
Proof.
  unfold toLowerCase. rewrite orderMatch_lowerFrom, HasCode_orderMatch_raw.
  destruct (Nibbly.orderMatch s) as [x|]; simpl; split.
  - intros _. now eexists.
  - intros _. now exists x.
  - intros [x H]. discriminate.
  - intros [x H]. discriminate.
Qed.

Lemma nibbly_reply_code s m :
  Nibbly.orderMatch (toLowerCase s) = Some m ->
  exists x, LeftmostCode s x /\ toLowerCase x = m /\
            Nibbly.getBotResponse s = Nibbly.trackingReply (toUpperCase x).
Proof.
  intros Hm. pose proof Hm as Hm'. unfold toLowerCase in Hm'.
  rewrite orderMatch_lowerFrom in Hm'.
  destruct (Nibbly.orderMatch s) as [x|] eqn:Hx; [|discriminate].
  simpl in Hm'. injection Hm' as Hm'. pose proof (orderMatch_leftmost _ _ Hx) as Hl.
  assert (Hc : IsCode x) by (destruct Hl as [? [? [_ [Hc _]]]]; exact Hc).
  exists x. split; [exact Hl|]. split; [now rewrite IsCode_toLowerCase|].
  unfold Nibbly.getBotResponse. now rewrite Hm, <- Hm', toUpperCase_lowerAscii.
Qed.

Lemma nibbly_reply_leftmost s x :
  LeftmostCode s x -> Nibbly.getBotResponse s = Nibbly.trackingReply (toUpperCase x).
Proof.
  intros Hx. destruct (proj1 (HasCode_orderMatch s) (LeftmostCode_HasCode _ _ Hx)) as [m Hm].
  destruct (nibbly_reply_code _ _ Hm) as [y [Hy [_ E]]].
  now rewrite (LeftmostCode_unique _ _ _ Hx Hy).
Qed.

Lemma nibbly_no_code s : ~ HasCode s -> Nibbly.orderMatch (toLowerCase s) = None.
Proof.
  intros Hn. destruct (Nibbly.orderMatch (toLowerCase s)) as [m|] eqn:Hm; [|reflexivity].
  exfalso. apply Hn. apply HasCode_orderMatch. now exists m.
Qed.

End OrderCodes.

(** ** The resolvers, case by case *)

Lemma in_app_r_list {A} (x : A) (l1 l2 : list A) : In x l2 -> In x (l1 ++ l2).
Proof. intros H. apply in_or_app. now right. Qed.

Lemma support_keywordReply_cases message :
  In (Support.keywordReply message)
     [ Support.orderStatusReply; Support.cancelReply; Support.thankReply;
       Support.byeReply; Support.defaultReply ].
Proof.
  unfold Support.keywordReply.
  repeat match goal with |- context [if ?b then _ else _] => destruct b end;
    simpl; tauto.
Qed.

Lemma support_keywordReply_In message : In (Support.keywordReply message) supportReplies.
Proof. apply in_app_r_list. apply support_keywordReply_cases. Qed.

Lemma nibbly_keywordReply_cases message :
  In (Nibbly.keywordReply message)
     [ Nibbly.droneWhereReply; Nibbly.etaReply; Nibbly.thankReply;
       Nibbly.byeReply; Nibbly.defaultReply ].
Proof.
  unfold Nibbly.keywordReply.
  repeat match goal with |- context [if ?b then _ else _] => destruct b end;
    simpl; tauto.
Qed.

Lemma nibbly_keywordReply_In message : In (Nibbly.keywordReply message) nibblyReplies.
Proof. apply in_app_r_list. apply nibbly_keywordReply_cases. Qed.

Lemma trackingReply_cases orderNum :
  (exists droneData,
      Nibbly.lookup orderNum Nibbly.droneLocations = Some droneData /\
      Nibbly.trackingReply orderNum = Nibbly.trackingFound orderNum droneData) \/
  (Nibbly.lookup orderNum Nibbly.droneLocations = None /\
   Nibbly.trackingReply orderNum = Nibbly.trackingNotFound orderNum).
Proof.
  unfold Nibbly.trackingReply.
  destruct (Nibbly.lookup orderNum Nibbly.droneLocations) as [d|].
  - left. now exists d.
  - now right.
Qed.

(** A table, keyword or default reply is never a tracking reply. *)
Lemma nibblyReplies_not_tracking r :
  In r nibblyReplies ->
  forall orderNum,
    (forall droneData, r <> Nibbly.trackingFound orderNum droneData) /\
    r <> Nibbly.trackingNotFound orderNum.
Proof.
  intros H orderNum. unfold nibblyReplies, replies in H. simpl in H.
  repeat (destruct H as [<- | H];
          [split; [intros droneData E | intros E];
           unfold Nibbly.trackingFound, Nibbly.trackingNotFound in E;
           vm_compute in E; discriminate E |]).
  contradiction.
Qed.

Lemma trackingReply_not_canned orderNum :
  ~ In (Nibbly.trackingReply orderNum) nibblyReplies.
Proof.
  intros H. pose proof (nibblyReplies_not_tracking _ H orderNum) as [Hf Hn].
  destruct (trackingReply_cases orderNum) as [[d [_ E]] | [_ E]].
  - exact (Hf d E).
  - exact (Hn E).
Qed.

Lemma supportReplies_nonempty r : In r supportReplies -> r <> [].
Proof.
  intros H. unfold supportReplies, replies in H. simpl in H.
  repeat (destruct H as [<- | H]; [discriminate |]). contradiction.
Qed.

Lemma nibblyReplies_nonempty r : In r nibblyReplies -> r <> [].
Proof.
  intros H. unfold nibblyReplies, replies in H. simpl in H.
  repeat (destruct H as [<- | H]; [discriminate |]). contradiction.
Qed.

Lemma trackingReply_nonempty orderNum : Nibbly.trackingReply orderNum <> [].
Proof.
  destruct (trackingReply_cases orderNum) as [[d [_ E]] | [_ E]]; rewrite E;
    unfold Nibbly.trackingFound, Nibbly.trackingNotFound; simpl; discriminate.
Qed.

Section Resolvers.

Context {T : CaseTable}.

Lemma support_reply_In s : In (Support.getBotResponse s) supportReplies.
Proof.
  unfold Support.getBotResponse.
  destruct (firstMatch Support.botResponses (toLowerCase s)) as [r|] eqn:H.
  - apply in_or_app. left. exact (firstMatch_In _ _ _ H).
  - apply support_keywordReply_In.
Qed.

Lemma nibbly_reply_In s :
  Nibbly.orderMatch (toLowerCase s) = None -> In (Nibbly.getBotResponse s) nibblyReplies.
Proof.
  intros Hm. unfold Nibbly.getBotResponse. rewrite Hm.
  destruct (firstMatch Nibbly.botResponses (toLowerCase s)) as [r|] eqn:H.
  - apply in_or_app. left. exact (firstMatch_In _ _ _ H).
  - apply nibbly_keywordReply_In.
Qed.

Lemma support_reply_nonempty s : Support.getBotResponse s <> [].
Proof. apply supportReplies_nonempty, support_reply_In. Qed.

Lemma nibbly_reply_nonempty s : Nibbly.getBotResponse s <> [].
Proof.
  destruct (Nibbly.orderMatch (toLowerCase s)) as [m|] eqn:Hm.
  - destruct (nibbly_reply_code _ _ Hm) as [x [_ [_ E]]]. rewrite E.
    apply trackingReply_nonempty.
  - now apply nibblyReplies_nonempty, nibbly_reply_In.
Qed.

End Resolvers.

Lemma storedUnder_In key table r :
  storedUnder key table = Some r -> In r (replies table).
Proof.
  induction table as [|[k0 r0] rest IH]; simpl; [discriminate|].
  destruct (strictEq k0 key).
  - intros [= ->]. now left.
  - intros H. right. exact (IH H).
Qed.

(** ** The claims about the resolvers *)

(** C3 (Nibbly): the order-number check has priority over every other
    rule.  An input that contains an order code is answered with the
    tracking reply (found or not found) of the first such code, never with
    a table, keyword or default reply; the input "please track N001 now"
    gets the found reply of N001, and so does an input that also contains
    the table trigger "track my order". *)
Theorem C3_order_code_has_priority {T : CaseTable} :
  (forall s, HasCode s -> TrackingAnswer s) /\
  (exists droneData,
      Nibbly.lookup (js "N001") Nibbly.droneLocations = Some droneData /\
      Nibbly.getBotResponse (js "please track N001 now") =
        Nibbly.trackingFound (js "N001") droneData /\
      includes (js "track my order") (toLowerCase (js "Track my order N001 please")) = true /\
      Nibbly.getBotResponse (js "Track my order N001 please") =
        Nibbly.trackingFound (js "N001") droneData).
Proof.
  split.
  - intros s H. apply HasCode_orderMatch in H. destruct H as [m Hm].
    destruct (nibbly_reply_code _ _ Hm) as [x [Hx [_ E]]].
    exists x. split; [exact Hx|]. rewrite E. split.
    + destruct (trackingReply_cases (toUpperCase x)) as [[d [Hd Ed]] | [Hd Ed]].
      * left. now exists d.
      * now right.
    + apply trackingReply_not_canned.
  - eexists. split; [reflexivity|].
    split; [vm_compute; reflexivity|]. split; vm_compute; reflexivity.
Qed.

Lemma C3_order_code_has_priority_witness :
  HasCode (js "please track N001 now") /\
  TrackingAnswer (T := plainTable) (js "please track N001 now").
Proof.
  assert (H : HasCode (js "please track N001 now")).
  { apply (HasCode_orderMatch (T := plainTable)). eexists. vm_compute. reflexivity. }
  split; [exact H | exact (proj1 (C3_order_code_has_priority (T := plainTable)) _ H)].
Defined.

(** C5, as stated, fails whatever the case tables are: an input may
    contain an unknown order code after a known one, and the reply is then
    the found reply of the known one. *)
Lemma C5_counterexample :
  ~ exists T : CaseTable,
      forall s x,
        IsCode x -> Substring x s ->
        Nibbly.lookup (toUpperCase x) Nibbly.droneLocations = None ->
        Nibbly.getBotResponse s = Nibbly.trackingNotFound (toUpperCase x).
Proof.
  intros [T H]. specialize (H (js "is N001 before N999") (js "N999")).
  assert (E : Nibbly.getBotResponse (js "is N001 before N999") =
              Nibbly.trackingNotFound (js "N999")).
  { apply H.
    - exists 78, 57, 57, 57. split; [reflexivity|]. now vm_compute.
    - now exists (js "is N001 before "), [].
    - reflexivity. }
  vm_compute in E. discriminate E.
Qed.

(** C5 (Nibbly), amended: when the first order code of the input is not a
    key of [droneLocations], the reply is the not-found reply, which names
    that code in upper case and is neither the default reply nor any other
    table or keyword reply.  The miss is an ordinary return value. *)
Theorem C5_unknown_code_not_found {T : CaseTable} (s x : jsstring) :
  LeftmostCode s x ->
  Nibbly.lookup (toUpperCase x) Nibbly.droneLocations = None ->
  Nibbly.getBotResponse s = Nibbly.trackingNotFound (toUpperCase x) /\
  Substring (toUpperCase x) (Nibbly.getBotResponse s) /\
  Nibbly.getBotResponse s <> Nibbly.defaultReply /\
  ~ In (Nibbly.getBotResponse s) nibblyReplies.
Proof.
  intros Hx Hl. rewrite (nibbly_reply_leftmost _ _ Hx).
  assert (E : Nibbly.trackingReply (toUpperCase x) = Nibbly.trackingNotFound (toUpperCase x)).
  { unfold Nibbly.trackingReply. now rewrite Hl. }
  split; [exact E|]. split; [|split].
  - rewrite E. unfold Nibbly.trackingNotFound. now eexists _, _.
  - intros D. apply (trackingReply_not_canned (toUpperCase x)). rewrite D.
    apply in_app_r_list. simpl. tauto.
  - apply trackingReply_not_canned.
Qed.

Lemma C5_unknown_code_not_found_witness :
  Nibbly.getBotResponse (T := plainTable) (js "status of N999") =
    Nibbly.trackingNotFound (js "N999") /\
  Nibbly.getBotResponse (T := plainTable) (js "status of N999") <> Nibbly.defaultReply.
Proof.
  assert (Hx : LeftmostCode (js "status of N999") (js "N999")).
  { apply orderMatch_leftmost. vm_compute. reflexivity. }
  assert (Hl : Nibbly.lookup (toUpperCase (js "N999")) Nibbly.droneLocations = None).
  { vm_compute. reflexivity. }
  pose proof (C5_unknown_code_not_found (T := plainTable) (js "status of N999") (js "N999")
                                        Hx Hl) as [A [_ [B _]]].
  split; [exact A | exact B].
Defined.

(** C6 (Nibbly): the scan finds a code exactly when the input contains the
    letter N, in either case, followed by three digits; the code looked up
    is the first such run of the input, upper-cased; and an input without
    such a run never gets a found or a not-found reply. *)
Theorem C6_order_code_scan {T : CaseTable} (s : jsstring) :
  (HasCode s <-> exists m, Nibbly.orderMatch (toLowerCase s) = Some m) /\
  (forall m, Nibbly.orderMatch (toLowerCase s) = Some m ->
     exists x, LeftmostCode s x /\ toLowerCase x = m /\
               Nibbly.getBotResponse s = Nibbly.trackingReply (toUpperCase x)) /\
  (~ HasCode s ->
     forall orderNum,
       (forall droneData, Nibbly.getBotResponse s <> Nibbly.trackingFound orderNum droneData) /\
       Nibbly.getBotResponse s <> Nibbly.trackingNotFound orderNum).
Proof.
  split; [apply HasCode_orderMatch|]. split; [apply nibbly_reply_code|].
  intros Hn. apply nibblyReplies_not_tracking. apply nibbly_reply_In.
  now apply nibbly_no_code.
Qed.

(** C4: the table walk is first-match-wins in table order.  Whenever a
    trigger of the table occurs in the lower-cased input and no trigger
    written before it in the table does (and, for Nibbly, the input has no
    order code), the reply is the one stored under that trigger, wherever
    in the text the triggers stand. *)
Theorem C4_first_match_wins {T : CaseTable} (s : jsstring) (i : nat)
        (key response : jsstring) :
  (EarliestTrigger Support.botResponses (toLowerCase s) i key response ->
   Support.getBotResponse s = response) /\
  (~ HasCode s ->
   EarliestTrigger Nibbly.botResponses (toLowerCase s) i key response ->
   Nibbly.getBotResponse s = response).
Proof.
  split.
  - intros H. unfold Support.getBotResponse.
    now rewrite (firstMatch_earliest _ _ _ _ _ H).
  - intros Hn H. unfold Nibbly.getBotResponse.
    rewrite (nibbly_no_code _ Hn). now rewrite (firstMatch_earliest _ _ _ _ _ H).
Qed.

(** The text below has "hi" at its start, then "refund", then "hello";
    the table lists "hello" before "hi" and "refund". *)
Lemma C4_first_match_wins_witness :
  exists response,
    storedUnder (js "hello") Support.botResponses = Some response /\
    EarliestTrigger Support.botResponses
                    (toLowerCase (T := plainTable) (js "Hi, a REFUND please. Hello?"))
                    3 (js "hello") response /\
    Support.getBotResponse (T := plainTable) (js "Hi, a REFUND please. Hello?") = response.
Proof.
  eexists. split; [reflexivity|].
  match goal with |- ?E /\ _ => assert (H : E) end.
  { split; [reflexivity|]. split.
    - apply includes_iff. vm_compute. reflexivity.
    - intros j kj rj Hj Hs. apply includes_iff in Hs.
      destruct j as [|[|[|j]]]; [| | | lia];
        simpl in Hj; injection Hj as <- <-; vm_compute in Hs; discriminate Hs. }
  split; [exact H|].
  exact (proj1 (C4_first_match_wins (T := plainTable)
                  (js "Hi, a REFUND please. Hello?") 3 (js "hello") _) H).
Defined.

(** The Kelvin sign U+212A lower-cases to the letter k, and the dotted
    capital I U+0130 to the letter i and a combining dot: a text written
    with them holds the triggers and keywords that the letters spell. *)
Example kelvin_sign_spells_track {T : CaseTable} :
  storedUnder (js "track my order") Support.botResponses =
    Some (Support.getBotResponse (js "refund trac" ++ [0x212A] ++ js " my order")) /\
  storedUnder (js "track my order") Support.botResponses =
    Some (Support.getBotResponse (js "shipping trac" ++ [0x212A] ++ js " my order")) /\
  Support.getBotResponse (js "THAN" ++ [0x212A] ++ js " YOU") = Support.thankReply /\
  storedUnder (js "hi") Support.botResponses =
    Some (Support.getBotResponse (js "H" ++ [0x130])) /\
  storedUnder (js "track my order") Nibbly.botResponses =
    Some (Nibbly.getBotResponse (js "where drone trac" ++ [0x212A] ++ js " my order")).
Proof. repeat split; vm_compute; reflexivity. Qed.

Lemma support_never_replies {T : CaseTable} (s r : jsstring) :
  storedUnder (js "I need help") Support.botResponses = Some r ->
  (forall t, includes (js "I need help") (toLowerCase t) = false) ->
  Support.getBotResponse s <> r.
Proof.
  intros Hst Hk E. pose proof Hst as Hlit. vm_compute in Hlit. injection Hlit as Hlit.
  unfold Support.getBotResponse in E.
  destruct (firstMatch Support.botResponses (toLowerCase s)) as [r'|] eqn:H.
  - destruct (firstMatch_key _ _ _ H) as [key [Hin Hinc]]. subst r'.
    unfold Support.botResponses in Hin. cbn [In] in Hin.
    repeat (destruct Hin as [Hin | Hin];
            [pose proof (f_equal fst Hin) as Hkey; pose proof (f_equal snd Hin) as Hr;
             cbn [fst snd] in Hkey, Hr;
             first [rewrite <- Hlit in Hr; vm_compute in Hr; discriminate Hr
                   | rewrite <- Hkey, Hk in Hinc; discriminate Hinc] |]).
    contradiction.
  - pose proof (support_keywordReply_cases (toLowerCase s)) as Hin.
    rewrite E, <- Hlit in Hin. cbn [In] in Hin.
    repeat (destruct Hin as [Hin | Hin]; [vm_compute in Hin; discriminate Hin |]).
    contradiction.
Qed.

Lemma nibbly_never_replies {T : CaseTable} (s r : jsstring) :
  storedUnder (js "I need help") Nibbly.botResponses = Some r ->
  (forall t, includes (js "I need help") (toLowerCase t) = false) ->
  Nibbly.getBotResponse s <> r.
Proof.
  intros Hst Hk E. pose proof Hst as Hlit. vm_compute in Hlit. injection Hlit as Hlit.
  unfold Nibbly.getBotResponse in E.
  destruct (Nibbly.orderMatch (toLowerCase s)) as [m|] eqn:Hm.
  - apply (trackingReply_not_canned (toUpperCase m)). rewrite E.
    apply in_or_app. left. exact (storedUnder_In _ _ _ Hst).
  - destruct (firstMatch Nibbly.botResponses (toLowerCase s)) as [r'|] eqn:H.
    + destruct (firstMatch_key _ _ _ H) as [key [Hin Hinc]]. subst r'.
      unfold Nibbly.botResponses in Hin. cbn [In] in Hin.
      repeat (destruct Hin as [Hin | Hin];
              [pose proof (f_equal fst Hin) as Hkey; pose proof (f_equal snd Hin) as Hr;
               cbn [fst snd] in Hkey, Hr;
               first [rewrite <- Hlit in Hr; vm_compute in Hr; discriminate Hr
                     | rewrite <- Hkey, Hk in Hinc; discriminate Hinc] |]).
      contradiction.
    + pose proof (nibbly_keywordReply_cases (toLowerCase s)) as Hin.
      rewrite E, <- Hlit in Hin. cbn [In] in Hin.
      repeat (destruct Hin as [Hin | Hin]; [vm_compute in Hin; discriminate Hin |]).
      contradiction.
Qed.

(** C10: the trigger "I need help" has an upper-case letter and the text
    it is searched in is lower-cased, so it occurs in no text; the reply
    stored under it is never returned, by either widget, for any input;
    the Help quick action, whose query is that very phrase, gets the
    default reply. *)
Theorem C10_help_trigger_never_matches {T : CaseTable} :
  (forall s, includes (js "I need help") (toLowerCase s) = false) /\
  (exists r, storedUnder (js "I need help") Support.botResponses = Some r /\
             forall s, Support.getBotResponse s <> r) /\
  (exists r, storedUnder (js "I need help") Nibbly.botResponses = Some r /\
             forall s, Nibbly.getBotResponse s <> r) /\
  (In (js "I need help") Support.quickActions /\
   Support.getBotResponse (js "I need help") = Support.defaultReply) /\
  (In (js "I need help") Nibbly.quickActions /\
   Nibbly.getBotResponse (js "I need help") = Nibbly.defaultReply).
Proof.
  assert (Hk : forall s, includes (js "I need help") (toLowerCase s) = false).
  { intros s. now apply upper_key_never_included. }
  split; [exact Hk|]. split; [|split; [|split]].
  - eexists. split; [reflexivity|]. intros s.
    now apply support_never_replies.
  - eexists. split; [reflexivity|]. intros s.
    now apply nibbly_never_replies.
  - split; [simpl; tauto | vm_compute; reflexivity].
  - split; [simpl; tauto | vm_compute; reflexivity].
Qed.


(** ** Trimming does not change the reply

    No trigger, keyword or order code starts or ends with white space or
    holds a code unit outside ASCII, so an occurrence in a lower-cased
    text lies inside the lower-case form of its trimmed part, whatever
    the white space around it lower-cases to. *)

Lemma allSpace_app (a b : jsstring) : allSpace (a ++ b) = allSpace a && allSpace b.
Proof. apply forallb_app. Qed.

Lemma forallb_lastUnit (P : codeUnit -> bool) (e : jsstring) :
  forallb P e = true -> e <> [] -> exists c, lastUnit e = Some c /\ P c = true.
Proof.
  induction e as [|x e IH]; intros H Hne; [contradiction|].
  simpl in H. apply andb_true_iff in H as [Hx He].
  destruct e as [|y e].
  - now exists x.
  - destruct (IH He) as [c [Hc Hs]]; [discriminate|]. now exists c.
Qed.

(** An occurrence of [k] does not start inside a run of code units that
    the first code unit of [k] is not one of. *)
Lemma occurrence_after (P : codeUnit -> bool) a u c k' pre post :
  forallb P a = true -> P c = false ->
  a ++ u = pre ++ (c :: k') ++ post ->
  exists pre', pre = a ++ pre' /\ u = pre' ++ (c :: k') ++ post.
Proof.
  intros Ha Hc. revert pre. induction a as [|x a IH]; intros pre H.
  - now exists pre.
  - simpl in Ha. apply andb_true_iff in Ha as [Hx Ha].
    destruct pre as [|y pre]; simpl in H; injection H as -> H.
    + congruence.
    + destruct (IH Ha _ H) as [pre' [-> ->]]. now exists pre'.
Qed.

(** Nor does it end inside a run that its last code unit is not one of. *)
Lemma occurrence_before (P : codeUnit -> bool) u b k c pre post :
  forallb P b = true -> lastUnit k = Some c -> P c = false ->
  u ++ b = pre ++ k ++ post ->
  exists post', post = post' ++ b /\ u = pre ++ k ++ post'.
Proof.
  intros Hb Hl Hc H.
  assert (Hne : k <> []) by (intros ->; discriminate).
  rewrite app_assoc in H.
  destruct (append_eq_append _ _ _ _ H) as [[e [-> ->]] | [e [He ->]]].
  - exists e. split; [reflexivity | now rewrite <- app_assoc].
  - destruct e as [|y e].
    + exists []. rewrite app_nil_r in He. split; [reflexivity|].
      now rewrite app_nil_r, <- app_assoc in *.
    + exfalso. rewrite forallb_app in Hb. apply andb_true_iff in Hb as [Hb _].
      destruct (forallb_lastUnit _ _ Hb) as [c' [Hl' Hs']]; [discriminate|].
      assert (E : lastUnit (pre ++ k) = lastUnit (u ++ y :: e)) by now rewrite He.
      rewrite !lastUnit_app in E by (trivial; discriminate). congruence.
Qed.

Lemma Substring_inside (P : codeUnit -> bool) a u b c k' cl :
  forallb P a = true -> forallb P b = true ->
  P c = false -> lastUnit (c :: k') = Some cl -> P cl = false ->
  (Substring (c :: k') (a ++ u ++ b) <-> Substring (c :: k') u).
Proof.
  intros Ha Hb Hc Hl Hcl. split.
  - intros [pre [post H]].
    destruct (occurrence_after P _ _ _ _ _ _ Ha Hc H) as [pre' [_ H']].
    destruct (occurrence_before P _ _ _ _ _ _ Hb Hl Hcl H') as [post' [_ H'']].
    now exists pre', post'.
  - intros [pre [post ->]]. exists (a ++ pre), (post ++ b).
    now rewrite <- !app_assoc.
Qed.

Lemma trimSafe_first k :
  trimSafe k = true -> exists c k', k = c :: k' /\ isSpace c = false.
Proof.
  unfold trimSafe. destruct k as [|c k']; [discriminate|].
  intros H. apply andb_true_iff in H as [H _]. exists c, k'.
  split; [reflexivity | now destruct (isSpace c)].
Qed.

Lemma trimSafe_last k :
  trimSafe k = true -> exists c, lastUnit k = Some c /\ isSpace c = false.
Proof.
  unfold trimSafe. intros H. apply andb_true_iff in H as [_ H].
  destruct (lastUnit k) as [c|]; [|discriminate].
  exists c. split; [reflexivity | now destruct (isSpace c)].
Qed.

Lemma trimSafe_nonempty k : trimSafe k = true -> k <> [].
Proof. intros H ->. discriminate. Qed.

Lemma trimStart_decomp s : exists a, s = a ++ trimStart s /\ allSpace a = true.
Proof.
  induction s as [|c s [a [Hs Ha]]]; simpl.
  - now exists [].
  - destruct (isSpace c) eqn:Hc.
    + exists (c :: a). unfold allSpace in *. simpl. rewrite Hc, Ha.
      split; [now rewrite <- Hs | reflexivity].
    + now exists [].
Qed.

Lemma trimEnd_decomp s : exists b, s = trimEnd s ++ b /\ allSpace b = true.
Proof.
  induction s as [|c s [b [Hs Hb]]]; simpl.
  - now exists [].
  - destruct (trimEnd s) as [|y t] eqn:Ht.
    + simpl in Hs. subst b. destruct (isSpace c) eqn:Hc.
      * exists (c :: s). unfold allSpace in *. simpl. now rewrite Hc, Hb.
      * now exists s.
    + exists b. simpl. split; [now rewrite Hs at 1 | exact Hb].
Qed.

Lemma trim_decomp s :
  exists a b, s = a ++ trim s ++ b /\ allSpace a = true /\ allSpace b = true.
Proof.
  destruct (trimStart_decomp s) as [a [Hs Ha]].
  destruct (trimEnd_decomp (trimStart s)) as [b [Ht Hb]].
  exists a, b. unfold trim. now rewrite <- Ht.
Qed.

Lemma Substring_trim k s :
  trimSafe k = true -> (Substring k (trim s) <-> Substring k s).
Proof.
  intros Hk. destruct (trim_decomp s) as [a [b [Hs [Ha Hb]]]].
  destruct (trimSafe_first _ Hk) as [c [k' [-> Hc]]].
  destruct (trimSafe_last _ Hk) as [cl [Hl Hcl]].
  rewrite Hs at 2. symmetry. now apply (Substring_inside isSpace _ _ _ _ _ cl).
Qed.

Lemma IsCode_trimSafe m : IsCode m -> trimSafe m = true.
Proof.
  intros [c [d1 [d2 [d3 [-> [Hc [_ [_ H3]]]]]]]]. unfold trimSafe. cbn [lastUnit].
  destruct (isSpace c) eqn:Sc; [now rewrite (isSpace_not_isN _ Sc) in Hc|].
  destruct (isSpace d3) eqn:S3; [now rewrite (isSpace_not_digit _ S3) in H3|].
  reflexivity.
Qed.

Lemma HasCode_trim s : HasCode (trim s) <-> HasCode s.
Proof.
  split; intros [m [Hc Hs]]; exists m; (split; [exact Hc|]).
  - exact (proj1 (Substring_trim _ _ (IsCode_trimSafe _ Hc)) Hs).
  - exact (proj2 (Substring_trim _ _ (IsCode_trimSafe _ Hc)) Hs).
Qed.

Lemma LeftmostCode_trim s x : LeftmostCode s x -> LeftmostCode (trim s) x.
Proof.
  intros [pre [post [H [Hc Hl]]]].
  destruct (trim_decomp s) as [a [b [Hs [Ha Hb]]]].
  pose proof (IsCode_trimSafe _ Hc) as Hk.
  destruct (trimSafe_first _ Hk) as [c [k' [Ex Hc0]]].
  destruct (trimSafe_last _ Hk) as [cl [Hlast Hcl]].
  assert (H' := H). rewrite Hs in H'. rewrite Ex in H', Hlast.
  destruct (occurrence_after isSpace _ _ _ _ _ _ Ha Hc0 H') as [p [Hp H1]].
  destruct (occurrence_before isSpace _ _ _ _ _ _ Hb Hlast Hcl H1) as [q [Hq H2]].
  rewrite <- Ex in H2.
  exists p, q. split; [exact H2|]. split; [exact Hc|].
  intros p3 m3 q3 H3 Hc3.
  assert (E : s = (a ++ p3) ++ m3 ++ (q3 ++ b)).
  { rewrite Hs at 1. now rewrite H3, <- !app_assoc. }
  specialize (Hl _ _ _ E Hc3). rewrite Hp, !length_app in Hl. lia.
Qed.

Lemma orderMatch_trim s : Nibbly.orderMatch (trim s) = Nibbly.orderMatch s.
Proof.
  destruct (Nibbly.orderMatch s) as [m|] eqn:Hm.
  - pose proof (LeftmostCode_trim _ _ (orderMatch_leftmost _ _ Hm)) as Hl.
    destruct (Nibbly.orderMatch (trim s)) as [m'|] eqn:Hm'.
    + f_equal. exact (LeftmostCode_unique _ _ _ (orderMatch_leftmost _ _ Hm') Hl).
    + exfalso. exact (orderMatch_None _ Hm' (LeftmostCode_HasCode _ _ Hl)).
  - destruct (Nibbly.orderMatch (trim s)) as [m'|] eqn:Hm'; [|reflexivity].
    exfalso. apply (orderMatch_None _ Hm). apply HasCode_trim.
    exact (LeftmostCode_HasCode _ _ (orderMatch_leftmost _ _ Hm')).
Qed.

(** *** Texts that agree on their ASCII code units *)

Lemma SameAscii_app_same e l1 l2 : SameAscii l1 l2 -> SameAscii (e ++ l1) (e ++ l2).
Proof.
  intros H. induction e as [|u e IH]; [exact H|]. simpl. now apply SameAscii_unit.
Qed.

Lemma startsWith_high k c x rest :
  (c <? 128) = true -> (128 <=? x) = true -> startsWith (c :: k) (x :: rest) = false.
Proof.
  intros Hc Hx. simpl. apply N.ltb_lt in Hc. apply N.leb_le in Hx.
  destruct (N.eqb_spec c x); [lia | reflexivity].
Qed.

Lemma startsWith_SameAscii k l1 l2 :
  asciiOnly k = true -> SameAscii l1 l2 -> startsWith k l1 = startsWith k l2.
Proof.
  intros Hk H. revert k Hk.
  induction H as [|u l1 l2 H IH|e1 e2 l1 l2 N1 N2 H1 H2 H IH]; intros k Hk.
  - reflexivity.
  - destruct k as [|c k]; [reflexivity|]. simpl in *.
    apply andb_true_iff in Hk as [_ Hk]. now rewrite (IH _ Hk).
  - destruct k as [|c k]; [reflexivity|].
    simpl in Hk. apply andb_true_iff in Hk as [Hc _].
    destruct e1 as [|x1 e1]; [contradiction|]. destruct e2 as [|x2 e2]; [contradiction|].
    simpl in H1, H2. apply andb_true_iff in H1 as [H1 _].
    apply andb_true_iff in H2 as [H2 _].
    cbn [app]. now rewrite !startsWith_high.
Qed.

Lemma includes_high_run k e l :
  asciiOnly k = true -> forallb (fun u => 128 <=? u) e = true -> k <> [] ->
  includes k (e ++ l) = includes k l.
Proof.
  intros Hk He Hne. destruct k as [|c k]; [contradiction|].
  simpl in Hk. apply andb_true_iff in Hk as [Hc _].
  induction e as [|x e IH]; [reflexivity|].
  simpl in He. apply andb_true_iff in He as [Hx He].
  cbn [app includes]. rewrite (startsWith_high _ _ _ _ Hc Hx). exact (IH He).
Qed.

Lemma includes_nil s : includes [] s = true.
Proof. now destruct s. Qed.

Lemma includes_SameAscii k l1 l2 :
  asciiOnly k = true -> SameAscii l1 l2 -> includes k l1 = includes k l2.
Proof.
  intros Hk H. destruct k as [|c k]; [now rewrite !includes_nil|].
  induction H as [|u l1 l2 H IH|e1 e2 l1 l2 N1 N2 H1 H2 H IH].
  - reflexivity.
  - cbn [includes]. rewrite IH.
    now rewrite (startsWith_SameAscii _ (u :: l1) (u :: l2) Hk (SameAscii_unit _ _ _ H)).
  - rewrite !includes_high_run by (trivial; discriminate). exact IH.
Qed.

Lemma asciiOnly_In k c : asciiOnly k = true -> In c k -> (c <? 128) = true.
Proof. intros H Hin. exact (proj1 (forallb_forall _ _) H c Hin). Qed.

Lemma plainKey_ends k :
  plainKey k = true ->
  exists c k' cl, k = c :: k' /\ edge c = false /\
                  lastUnit k = Some cl /\ edge cl = false.
Proof.
  unfold plainKey. intros H. apply andb_true_iff in H as [Ha Ht].
  destruct (trimSafe_first _ Ht) as [c [k' [-> Hc]]].
  destruct (trimSafe_last _ Ht) as [cl [Hl Hcl]].
  exists c, k', cl. split; [reflexivity|].
  pose proof (asciiOnly_In _ c Ha (or_introl eq_refl)) as A1.
  pose proof (asciiOnly_In _ cl Ha (lastUnit_In _ _ Hl)) as A2.
  unfold edge. rewrite Hc, Hcl. apply N.ltb_lt in A1, A2.
  split; [|split; [exact Hl|]]; simpl; apply N.leb_gt; lia.
Qed.

Section Trimming.

Context {T : CaseTable}.

Lemma lowerIn_SameAscii s before1 after1 before2 after2 :
  SameAscii (lowerIn before1 s after1) (lowerIn before2 s after2).
Proof.
  revert before1 before2. induction s as [|c r IH]; intros before1 before2.
  - constructor.
  - cbn [lowerIn].
    destruct (lowerUnit_cases before1 c (r ++ after1)) as [[Ho E] | [Ho [N1 H1]]].
    + rewrite (E before2 (r ++ after2)). apply SameAscii_app_same. apply IH.
    + destruct (lowerUnit_cases before2 c (r ++ after2)) as [[Ho' _] | [_ [N2 H2]]];
        [congruence|].
      apply SameAscii_run; trivial.
Qed.

Lemma lowerIn_edge a before after :
  allSpace a = true -> forallb edge (lowerIn before a after) = true.
Proof.
  revert before. induction a as [|c r IH]; intros before H; [reflexivity|].
  unfold allSpace in H. simpl in H. apply andb_true_iff in H as [Hc Hr].
  cbn [lowerIn]. rewrite forallb_app, (IH _ Hr), andb_true_r.
  destruct (lowerUnit_cases before c (r ++ after)) as [[Ho _] | [_ [_ H]]].
  - rewrite (lowerUnit_ascii _ _ _ Ho). unfold edge. revert Hc Ho. units.
  - apply high_units; [|exact H]. intros u Hu. unfold edge.
    apply N.leb_le in Hu. rewrite Hu. apply orb_true_r.
Qed.

(** What a plain trigger finds in a lower-cased text it finds in the
    lower-case form of the trimmed text. *)
Lemma includes_lower_trim k s :
  plainKey k = true ->
  includes k (toLowerCase (trim s)) = includes k (toLowerCase s).
Proof.
  intros Hk. destruct (trim_decomp s) as [a [b [Hs [Ha Hb]]]].
  destruct (plainKey_ends _ Hk) as [c [k' [cl [-> [Hc [Hl Hcl]]]]]].
  assert (Hascii : asciiOnly (c :: k') = true).
  { unfold plainKey in Hk. now apply andb_true_iff in Hk as [Hk _]. }
  assert (E : toLowerCase s =
              lowerIn [] a (trim s ++ b) ++ lowerIn a (trim s) b ++
              lowerIn (a ++ trim s) b []).
  { unfold toLowerCase. rewrite lowerFrom_lowerIn. rewrite Hs at 1.
    rewrite !lowerIn_app, !app_nil_r. reflexivity. }
  rewrite E. unfold toLowerCase. rewrite lowerFrom_lowerIn.
  rewrite (includes_SameAscii _ _ _ Hascii
             (lowerIn_SameAscii (trim s) [] [] a b)).
  destruct (includes (c :: k') (lowerIn a (trim s) b)) eqn:I.
  - symmetry. apply includes_iff.
    apply (proj2 (Substring_inside edge _ _ _ _ _ cl
                    (lowerIn_edge _ _ _ Ha) (lowerIn_edge _ _ _ Hb) Hc Hl Hcl)).
    now apply includes_iff.
  - symmetry. apply includes_false_iff. intros H. apply includes_false_iff in I. apply I.
    exact (proj1 (Substring_inside edge _ _ _ _ _ cl
                    (lowerIn_edge _ _ _ Ha) (lowerIn_edge _ _ _ Hb) Hc Hl Hcl) H).
Qed.

Lemma firstMatch_lower_trim table s :
  forallb (fun entry => plainKey (fst entry)) table = true ->
  firstMatch table (toLowerCase (trim s)) = firstMatch table (toLowerCase s).
Proof.
  induction table as [|[k r] rest IH]; simpl; [reflexivity|].
  intros H. apply andb_true_iff in H as [Hk Hr].
  now rewrite (includes_lower_trim _ _ Hk), (IH Hr).
Qed.

Lemma orderMatch_lower_trim s :
  Nibbly.orderMatch (toLowerCase (trim s)) = Nibbly.orderMatch (toLowerCase s).
Proof. unfold toLowerCase. now rewrite !orderMatch_lowerFrom, orderMatch_trim. Qed.

Lemma support_reply_trim s :
  Support.getBotResponse (trim s) = Support.getBotResponse s.
Proof.
  unfold Support.getBotResponse, Support.keywordReply. cbv zeta.
  rewrite firstMatch_lower_trim by (vm_compute; reflexivity).
  now rewrite !includes_lower_trim by (vm_compute; reflexivity).
Qed.

Lemma nibbly_reply_trim s :
  Nibbly.getBotResponse (trim s) = Nibbly.getBotResponse s.
Proof.
  unfold Nibbly.getBotResponse, Nibbly.keywordReply. cbv zeta.
  rewrite orderMatch_lower_trim, firstMatch_lower_trim by (vm_compute; reflexivity).
  now rewrite !includes_lower_trim by (vm_compute; reflexivity).
Qed.

End Trimming.

(** ** The conversation state manager *)

Lemma trimStart_allSpace s : allSpace s = true -> trimStart s = [].
Proof.
  unfold allSpace. induction s as [|c s IH]; simpl; [reflexivity|].
  destruct (isSpace c); simpl; [exact IH | discriminate].
Qed.

Lemma trim_allSpace s : allSpace s = true -> trim s = [].
Proof. intros H. unfold trim. now rewrite (trimStart_allSpace _ H). Qed.

(** The trimmed text is empty for white space only. *)
Lemma trim_empty_iff s : trim s = [] <-> allSpace s = true.
Proof.
  split; [|apply trim_allSpace].
  intros H. destruct (trim_decomp s) as [a [b [Hs [Ha Hb]]]].
  rewrite H in Hs. rewrite Hs. simpl. now rewrite allSpace_app, Ha, Hb.
Qed.

Lemma truthy_true_iff s : truthy s = true <-> s <> [].
Proof. destruct s; simpl; split; intros; congruence. Qed.

(** While a reply is awaited the input and the send button are disabled:
    nothing typed can be submitted. *)
Lemma typed_paths_blocked_while_typing resolve quick now st :
  isTyping st = true ->
  (forall v, dispatch resolve quick (Change v) now st = None) /\
  (forall key shiftKey, dispatch resolve quick (KeyPress key shiftKey) now st = None) /\
  dispatch resolve quick ClickSend now st = None.
Proof.
  intros H. simpl. rewrite H, orb_true_r. now repeat split.
Qed.

(** C2: with an input buffer that is empty or holds only white space (any
    of the code units [trim] strips, the no-break space and the other
    Unicode spaces included), sending (the Enter key, or
    [handleSendMessage] called without a text or with an empty one)
    returns the state as it was: no message, no timer, the same typing
    flag and the same buffer; the send button is disabled. *)
Theorem C2_blank_input_is_noop (messageText : option jsstring) (now : Z) (st : State) :
  allSpace (inputValue st) = true ->
  messageText = None \/ messageText = Some [] ->
  handleSendMessage messageText now st = st /\
  handleKeyPress (js "Enter") false now st = st /\
  (forall resolve quick, dispatch resolve quick ClickSend now st = None).
Proof.
  intros Hs Hm.
  assert (E : forall mt, mt = None \/ mt = Some [] ->
                         handleSendMessage mt now st = st).
  { intros mt [-> | ->]; unfold handleSendMessage; simpl;
      now rewrite (trim_allSpace _ Hs). }
  split; [now apply E|]. split.
  - unfold handleKeyPress. change (strictEq (js "Enter") (js "Enter")) with true.
    simpl. apply E. now left.
  - intros resolve quick. simpl. now rewrite (trim_allSpace _ Hs).
Qed.

(** A buffer of a no-break space, a space, a line feed and an ideographic
    space. *)
Lemma C2_blank_input_is_noop_witness :
  let st := setInputValue ([0xA0] ++ js " " ++ nl ++ [0x3000])
                          (Support.start 1700000000000) in
  allSpace (inputValue st) = true /\
  handleSendMessage None 1700000000900 st = st.
Proof.
  split; [reflexivity|].
  apply (C2_blank_input_is_noop None 1700000000900
           (setInputValue ([0xA0] ++ js " " ++ nl ++ [0x3000])
                          (Support.start 1700000000000))).
  - reflexivity.
  - now left.
Defined.

(** A typed text of three spaces is not the empty string, and sending it
    changes nothing. *)
Lemma blank_text_appends_nothing :
  let st := setInputValue (js "   ") (Support.start 1700000000000) in
  Idle st /\ inputValue st <> [] /\
  handleSendMessage None 1700000000900 st = st.
Proof. split; [now split|]. split; [discriminate | reflexivity]. Qed.

(** C7, as stated, fails for a typed text with white space around it: the
    message that is appended carries the trimmed text.  (A text of white
    space only is not empty either, and nothing is appended for it: see
    [blank_text_appends_nothing].) *)
Lemma C7_counterexample :
  ~ (forall s now st,
        s <> [] -> Idle st -> inputValue st = s ->
        exists m, messages (handleSendMessage None now st) = messages st ++ [m] /\
                  text m = s).
Proof.
  intros H.
  destruct (H (js " hi ") 1700000000900%Z
              (setInputValue (js " hi ") (Support.start 1700000000000)))
    as [m [Hm Ht]].
  - discriminate.
  - now split.
  - reflexivity.
  - vm_compute in Hm. injection Hm as Hm. rewrite <- Hm in Ht.
    vm_compute in Ht. discriminate Ht.
Qed.

(** C7, amended.  Let [t] be the text that is sent: the quick-action query,
    or else the trimmed input buffer.  If [t] is not empty and no reply is
    outstanding, [handleSendMessage] appends exactly one user message with
    text [t], empties the buffer, sets the typing flag and registers one
    callback.  Until the 1500 ms have elapsed the callback does not run,
    and the input and the send button deliver nothing, so the flag stays
    set.  When the callback runs it appends exactly one bot message whose
    text is the resolver's reply to [t] and clears the flag.  For a typed
    text that reply is also the reply to the text as typed: white space
    around a text does not change what either resolver answers. *)
Theorem C7_submit_then_delayed_reply {T : CaseTable}
        (resolve : jsstring -> jsstring) (quick : list jsstring)
        (messageText : option jsstring) (now later : Z) (st : State) :
  Idle st ->
  orElse messageText (trim (inputValue st)) <> [] ->
  (now + 1500 <= later)%Z ->
  let t := orElse messageText (trim (inputValue st)) in
  let st1 := handleSendMessage messageText now st in
  messages st1 =
    messages st ++
      [ {| id := numToString now; text := t; sender := user; timestamp := now |} ] /\
  inputValue st1 = [] /\
  isTyping st1 = true /\
  timers st1 = [ {| due := (now + 1500)%Z; captured := t |} ] /\
  (forall before, (before < now + 1500)%Z -> fireTimer resolve before st1 = None) /\
  (forall clock v key shiftKey,
      dispatch resolve quick (Change v) clock st1 = None /\
      dispatch resolve quick (KeyPress key shiftKey) clock st1 = None /\
      dispatch resolve quick ClickSend clock st1 = None) /\
  (messageText = None ->
   Support.getBotResponse t = Support.getBotResponse (inputValue st) /\
   Nibbly.getBotResponse t = Nibbly.getBotResponse (inputValue st)) /\
  exists st2,
    fireTimer resolve later st1 = Some st2 /\
    messages st2 =
      messages st1 ++
        [ {| id := numToString (later + 1); text := resolve t;
             sender := bot; timestamp := later |} ] /\
    isTyping st2 = false /\
    timers st2 = [] /\
    inputValue st2 = [].
Proof.
  intros [Hi Ht] Hne Hl t st1. subst t st1. unfold handleSendMessage.
  apply truthy_true_iff in Hne. cbv zeta. rewrite Hne. cbn [negb]. cbv iota.
  cbn [messages inputValue isTyping timers]. rewrite Ht. cbn [app].
  split; [reflexivity|]. split; [reflexivity|]. split; [reflexivity|].
  split; [reflexivity|]. split; [|split; [|split]].
  - intros before Hb. unfold fireTimer. cbn [timers due].
    destruct (Z.leb_spec (now + 1500) before); [lia | reflexivity].
  - intros clock v key shiftKey. cbn [dispatch isTyping]. rewrite orb_true_r.
    now split.
  - intros ->. split; [apply support_reply_trim | apply nibbly_reply_trim].
  - eexists. unfold fireTimer. cbn [timers due captured].
    destruct (Z.leb_spec (now + 1500) later); [|lia].
    split; [reflexivity|]. now split.
Qed.

(** The buffer holds "hi" between a no-break space and a space. *)
Lemma C7_submit_then_delayed_reply_witness :
  let st := setInputValue ([0xA0] ++ js "hi ") (Support.start 1700000000000) in
  exists st2,
    fireTimer (Support.getBotResponse (T := plainTable)) 1700000002400
              (handleSendMessage None 1700000000900 st) = Some st2 /\
    map text (messages st2) =
      [Support.greeting; js "hi"; Support.getBotResponse (T := plainTable) (js "hi")] /\
    isTyping st2 = false.
Proof.
  intros st.
  assert (Hi : Idle st) by (now split).
  assert (Hn : orElse None (trim (inputValue st)) <> []) by discriminate.
  assert (Hl : (1700000000900 + 1500 <= 1700000002400)%Z) by lia.
  destruct (C7_submit_then_delayed_reply (T := plainTable)
              (Support.getBotResponse (T := plainTable)) Support.quickActions
              None 1700000000900 1700000002400 st Hi Hn Hl)
    as [_ [_ [_ [_ [_ [_ [_ [st2 [Hf [Hm [Hty _]]]]]]]]]]].
  exists st2. split; [exact Hf|]. split; [|exact Hty]. rewrite Hm. reflexivity.
Defined.

(** A quick-action button is not disabled while a reply is awaited: its
    click goes through [handleSendMessage], which does not look at the
    typing flag. *)
Lemma quick_action_not_blocked resolve (quick : list jsstring) i (query : jsstring)
      now st :
  isTyping st = true ->
  nth_error quick i = Some query ->
  query <> [] ->
  dispatch resolve quick (ClickQuick i) now st =
    Some {| messages :=
              messages st ++
                [ {| id := numToString now; text := query; sender := user;
                     timestamp := now |} ];
            inputValue := [];
            isTyping := true;
            timers := timers st ++ [ {| due := (now + 1500)%Z; captured := query |} ] |}.
Proof.
  intros _ Hq Hne. apply truthy_true_iff in Hne.
  cbn [dispatch]. rewrite Hq. unfold handleSendMessage, orElse. cbv zeta.
  rewrite Hne. cbv iota. now rewrite Hne.
Qed.

(** C1, evaluated on the code: the claim does not hold of it.  After the
    quick action "track my order" the typing flag is set; a click on a
    second quick action 100 ms later is delivered all the same, appends a
    second user message and registers a second callback, so two delayed
    replies are outstanding; when the first has run the flag is cleared
    although the second is still to come.  (Typed submissions are blocked
    in that state: see [typed_paths_blocked_while_typing].) *)
Theorem C1_quick_action_while_typing {T : CaseTable} :
  (exists st1 st2 st3,
      Support.step (ClickQuick 0) 1700000000900 (Support.start 1700000000000) = Some st1 /\
      isTyping st1 = true /\
      Support.step (ClickQuick 1) 1700000001000 st1 = Some st2 /\
      map text (messages st2) = map text (messages st1) ++ [js "billing question"] /\
      List.length (timers st2) = 2%nat /\
      Support.step Fire 1700000002400 st2 = Some st3 /\
      isTyping st3 = false /\ List.length (timers st3) = 1%nat) /\
  (exists w0 w1 w2 w3,
      Nibbly.step Nibbly.Launcher 1700000000100 (Nibbly.start 1700000000000) = Some w0 /\
      Nibbly.step (Nibbly.Chat (ClickQuick 0)) 1700000000900 w0 = Some w1 /\
      isTyping (Nibbly.chat w1) = true /\
      Nibbly.step (Nibbly.Chat (ClickQuick 1)) 1700000001000 w1 = Some w2 /\
      map text (messages (Nibbly.chat w2)) =
        map text (messages (Nibbly.chat w1)) ++ [js "wrong order"] /\
      List.length (timers (Nibbly.chat w2)) = 2%nat /\
      Nibbly.step (Nibbly.Chat Fire) 1700000002400 w2 = Some w3 /\
      isTyping (Nibbly.chat w3) = false /\
      List.length (timers (Nibbly.chat w3)) = 1%nat).
Proof.
  split.
  - do 3 eexists. repeat split; try reflexivity.
  - do 4 eexists. repeat split; try reflexivity.
Qed.

(** C8, evaluated on the code: the claim does not hold of it.  An id is
    the clock reading of the handler, plus one for a bot message.  A reply
    that runs at instant [T] gets the id [T + 1]; a quick action clicked
    one millisecond later gets the id [T + 1] too.  The run below is
    accepted by both widgets and ends in a conversation with two messages
    of the same id. *)
Theorem C8_ids_can_repeat {T : CaseTable} :
  (exists st,
      Support.exec 1700000000000 (Support.start 1700000000000)
        [ (1700000000900, ClickQuick 0); (1700000002400, Fire);
          (1700000002401, ClickQuick 1) ]%Z = Some st /\
      map id (messages st) =
        [js "1"; js "1700000000900"; js "1700000002401"; js "1700000002401"] /\
      map sender (messages st) = [bot; user; bot; user] /\
      ~ NoDup (map id (messages st))) /\
  (exists w,
      Nibbly.exec 1700000000000 (Nibbly.start 1700000000000)
        [ (1700000000100, Nibbly.Launcher);
          (1700000000900, Nibbly.Chat (ClickQuick 0));
          (1700000002400, Nibbly.Chat Fire);
          (1700000002401, Nibbly.Chat (ClickQuick 1)) ]%Z = Some w /\
      map id (messages (Nibbly.chat w)) =
        [js "1"; js "1700000000900"; js "1700000002401"; js "1700000002401"] /\
      map sender (messages (Nibbly.chat w)) = [bot; user; bot; user] /\
      ~ NoDup (map id (messages (Nibbly.chat w)))).
Proof.
  assert (D : ~ NoDup [js "1"; js "1700000000900"; js "1700000002401";
                       js "1700000002401"]).
  { intros H. apply NoDup_cons_iff in H as [_ H]. apply NoDup_cons_iff in H as [_ H].
    apply NoDup_cons_iff in H as [N _]. apply N. now left. }
  split; eexists; (split; [vm_compute; reflexivity|]);
    (split; [reflexivity|]); (split; [reflexivity|]); exact D.
Qed.

Section Runs.

Variable resolve : jsstring -> jsstring.
Variable quick : list jsstring.

(** One event appends at most one message and rewrites none. *)
Lemma dispatch_messages e now st st' :
  dispatch resolve quick e now st = Some st' ->
  messages st' = messages st \/ exists m, messages st' = (messages st ++ [m]).
Proof.
  assert (Hs : forall mt, messages (handleSendMessage mt now st) = messages st \/
                          exists m, messages (handleSendMessage mt now st) =
                                    (messages st ++ [m])).
  { intros mt. unfold handleSendMessage.
    destruct (truthy (orElse mt (trim (inputValue st)))); simpl;
      [right; now eexists | now left]. }
  destruct e as [v | key shiftKey | | i |]; simpl.
  - destruct (isTyping st); [discriminate|]. intros [= <-]. now left.
  - destruct (isTyping st); [discriminate|]. intros [= <-].
    unfold handleKeyPress. destruct (_ && _); [apply Hs | now left].
  - destruct (_ || _); [discriminate|]. intros [= <-]. apply Hs.
  - destruct (nth_error quick i); [|discriminate]. intros [= <-]. apply Hs.
  - unfold fireTimer. destruct (timers st) as [|t rest]; [discriminate|].
    destruct (due t <=? now)%Z; [|discriminate]. intros [= <-].
    right. now eexists.
Qed.

(** A property of states that every delivered event keeps is kept by
    every run. *)
Lemma run_invariant (P : State -> Prop) :
  (forall e now st st', P st -> dispatch resolve quick e now st = Some st' -> P st') ->
  forall trace clock st st',
    P st -> run resolve quick clock st trace = Some st' -> P st'.
Proof.
  intros Hstep. induction trace as [|[now e] rest IH]; intros clock st st' HP H.
  - simpl in H. now injection H as <-.
  - simpl in H. destruct (clock <=? now)%Z; [|discriminate].
    destruct (dispatch resolve quick e now st) as [st1|] eqn:Hd; [|discriminate].
    exact (IH now st1 st' (Hstep _ _ _ _ HP Hd) H).
Qed.

(** Only the first event of a run is compared with the starting clock. *)
Lemma run_earlier_clock trace clock clock' st st' :
  (clock <= clock')%Z ->
  run resolve quick clock' st trace = Some st' ->
  run resolve quick clock st trace = Some st'.
Proof.
  intros Hc. destruct trace as [|[now e] rest]; simpl; [trivial|].
  destruct (Z.leb_spec clock' now); [|discriminate].
  destruct (Z.leb_spec clock now); [trivial | lia].
Qed.

End Runs.

(** X1: the conversation is append-only.  Whatever events are delivered,
    in either widget, the messages there were stay where they were, with
    the same ids, texts, senders and timestamps; a run only adds messages
    after them. *)
Theorem conversation_is_append_only {T : CaseTable} :
  (forall resolve quick trace clock st st',
      run resolve quick clock st trace = Some st' ->
      exists more, messages st' = (messages st ++ more)) /\
  (forall trace clock w w',
      Nibbly.exec clock w trace = Some w' ->
      exists more, messages (Nibbly.chat w') = (messages (Nibbly.chat w) ++ more)).
Proof.
  split.
  - intros resolve quick trace clock st st' H.
    apply (run_invariant resolve quick
             (fun s => exists more, messages s = (messages st ++ more))
             ) with (trace := trace) (clock := clock) (st := st); trivial.
    + intros e now s s' [more Hm] Hd.
      destruct (dispatch_messages _ _ _ _ _ _ Hd) as [E | [m E]]; rewrite E, Hm.
      * now exists more.
      * exists (more ++ [m]). now rewrite app_assoc.
    + exists []. now rewrite app_nil_r.
  - induction trace as [|[now e] rest IH]; intros clock w w' H.
    + simpl in H. injection H as <-. exists []. now rewrite app_nil_r.
    + simpl in H. destruct (clock <=? now)%Z; [|discriminate].
      destruct (Nibbly.step e now w) as [w1|] eqn:Hs; [|discriminate].
      destruct (IH _ _ _ H) as [more Hm]. rewrite Hm.
      assert (E : messages (Nibbly.chat w1) = messages (Nibbly.chat w) \/
                  exists m, messages (Nibbly.chat w1) =
                            (messages (Nibbly.chat w) ++ [m])).
      { destruct e as [| | | e]; simpl in Hs.
        - destruct (Nibbly.isOpen w); [discriminate|]. injection Hs as <-. now left.
        - destruct (Nibbly.isOpen w); [|discriminate]. injection Hs as <-. now left.
        - destruct (Nibbly.isOpen w); [|discriminate]. injection Hs as <-. now left.
        - assert (Hd : exists st1, dispatch Nibbly.getBotResponse Nibbly.quickActions
                                            e now (Nibbly.chat w) = Some st1 /\
                                   Nibbly.chat w1 = st1).
          { destruct e; simpl in Hs |- *;
              try (destruct (Nibbly.isOpen w && negb (Nibbly.isMinimized w));
                   [|discriminate]);
              match type of Hs with
              | option_map _ ?o = _ => destruct o as [st1|]; [|discriminate]
              end; injection Hs as <-; now exists st1. }
          destruct Hd as [st1 [Hd ->]].
          exact (dispatch_messages _ _ _ _ _ _ Hd). }
      destruct E as [E | [m E]]; rewrite E.
      * now exists more.
      * exists (m :: more). now rewrite <- app_assoc.
Qed.

Lemma conversation_is_append_only_witness :
  exists st',
    (Support.exec (T := plainTable)) 1700000000000 (Support.start 1700000000000)
      [ (1700000000500, Change (js "hello")); (1700000000900, ClickSend);
        (1700000002400, Fire) ]%Z = Some st' /\
    exists more, messages st' = (messages (Support.start 1700000000000) ++ more).
Proof.
  eexists. split; [vm_compute; reflexivity|].
  refine (proj1 (conversation_is_append_only (T := plainTable))
      (Support.getBotResponse (T := plainTable)) Support.quickActions
            [ (1700000000500, Change (js "hello")); (1700000000900, ClickSend);
              (1700000002400, Fire) ]%Z
            1700000000000%Z (Support.start 1700000000000) _ _).
  vm_compute. reflexivity.
Defined.

(** What one event of the Nibbly widget does to the conversation state:
    nothing (the launcher, minimize and close buttons), or what the shared
    manager does with the chat event. *)
Lemma nibbly_step_chat {T : CaseTable} e now w w' :
  Nibbly.step e now w = Some w' ->
  (Nibbly.chat w' = Nibbly.chat w /\ forall e', e <> Nibbly.Chat e') \/
  (exists e', e = Nibbly.Chat e' /\
              dispatch Nibbly.getBotResponse Nibbly.quickActions e' now (Nibbly.chat w)
              = Some (Nibbly.chat w')).
Proof.
  intros Hs. destruct e as [| | | e]; simpl in Hs.
  - destruct (Nibbly.isOpen w); [discriminate|]. injection Hs as <-.
    left. split; [reflexivity | discriminate].
  - destruct (Nibbly.isOpen w); [|discriminate]. injection Hs as <-.
    left. split; [reflexivity | discriminate].
  - destruct (Nibbly.isOpen w); [|discriminate]. injection Hs as <-.
    left. split; [reflexivity | discriminate].
  - right. exists e. split; [reflexivity|].
    destruct e; simpl in Hs |- *;
      try (destruct (Nibbly.isOpen w && negb (Nibbly.isMinimized w)); [|discriminate]);
      match type of Hs with
      | option_map _ ?o = _ => destruct o as [st1|]; [|discriminate]
      end; now injection Hs as <-.
Qed.

Lemma nibbly_exec_projects {T : CaseTable} trace clock w w' :
  Nibbly.exec clock w trace = Some w' ->
  run Nibbly.getBotResponse Nibbly.quickActions clock (Nibbly.chat w) (chatEvents trace)
  = Some (Nibbly.chat w').
Proof.
  revert clock w. induction trace as [|[now e] rest IH]; intros clock w H.
  - simpl in H. now injection H as <-.
  - simpl in H. destruct (Z.leb_spec clock now) as [Hc|]; [|discriminate].
    destruct (Nibbly.step e now w) as [w1|] eqn:Hs; [|discriminate].
    specialize (IH _ _ H).
    destruct (nibbly_step_chat _ _ _ _ Hs) as [[E Hn] | [e' [-> Hd]]].
    + rewrite E in IH.
      destruct e as [| | | e']; [| | | now elim (Hn e')]; simpl;
        exact (run_earlier_clock _ _ _ _ _ _ _ Hc IH).
    + simpl. destruct (Z.leb_spec clock now); [|lia]. now rewrite Hd.
Qed.

(** X2: the conversation of the Nibbly widget follows the shared manager.
    The launcher, minimize and close buttons leave messages, input buffer,
    typing flag and registered callbacks untouched, and the conversation
    state after any run of the widget is the one the shared manager
    reaches on the chat events of that run alone. *)
Theorem nibbly_conversation_follows_manager {T : CaseTable} (trace : list (Z * Nibbly.UiEvent))
        (clock : Z) (w w' : Nibbly.Widget) :
  Nibbly.exec clock w trace = Some w' ->
  run Nibbly.getBotResponse Nibbly.quickActions clock (Nibbly.chat w) (chatEvents trace)
  = Some (Nibbly.chat w') /\
  (chatEvents trace = [] -> Nibbly.chat w' = Nibbly.chat w).
Proof.
  intros H. pose proof (nibbly_exec_projects _ _ _ _ H) as Hp. split; [exact Hp|].
  intros E. rewrite E in Hp. simpl in Hp. now injection Hp as <-.
Qed.

Lemma nibbly_conversation_follows_manager_witness :
  exists w',
    (Nibbly.exec (T := plainTable)) 1700000000000 (Nibbly.start 1700000000000)
      [ (1700000000100, Nibbly.Launcher);
        (1700000000900, Nibbly.Chat (ClickQuick 0));
        (1700000001000, Nibbly.Close);
        (1700000002400, Nibbly.Chat Fire);
        (1700000003000, Nibbly.Launcher) ]%Z = Some w' /\
    run (Nibbly.getBotResponse (T := plainTable)) Nibbly.quickActions 1700000000000
        (Nibbly.chat (Nibbly.start 1700000000000))
        [ (1700000000900, ClickQuick 0); (1700000002400, Fire) ]%Z
    = Some (Nibbly.chat w').
Proof.
  eexists. split; [vm_compute; reflexivity|].
  refine (proj1 ((nibbly_conversation_follows_manager (T := plainTable))
                   [ (1700000000100, Nibbly.Launcher);
                     (1700000000900, Nibbly.Chat (ClickQuick 0));
                     (1700000001000, Nibbly.Close);
                     (1700000002400, Nibbly.Chat Fire);
                     (1700000003000, Nibbly.Launcher) ]%Z
                   1700000000000%Z (Nibbly.start 1700000000000) _ _)).
  vm_compute. reflexivity.
Defined.

(** ** Replies and the messages they answer *)

Lemma userTexts_send mt now st :
  truthy (orElse mt (trim (inputValue st))) = true ->
  userTexts (handleSendMessage mt now st) =
    (userTexts st ++ [orElse mt (trim (inputValue st))]) /\
  botTexts (handleSendMessage mt now st) = botTexts st /\
  timers (handleSendMessage mt now st) =
    (timers st ++ [ {| due := (now + 1500)%Z;
                       captured := orElse mt (trim (inputValue st)) |} ]).
Proof.
  intros Ht. unfold handleSendMessage, userTexts, botTexts. rewrite Ht. simpl.
  rewrite !filter_app, !map_app. simpl. now rewrite app_nil_r.
Qed.

Lemma handleSendMessage_blank mt now st :
  truthy (orElse mt (trim (inputValue st))) = false ->
  handleSendMessage mt now st = st.
Proof. intros Ht. unfold handleSendMessage. now rewrite Ht. Qed.

Section Replies.

Variable resolve : jsstring -> jsstring.
Variable quick : list jsstring.
Variable greeting : jsstring.

Lemma RepliesInOrder_send mt now st :
  RepliesInOrder resolve greeting st ->
  RepliesInOrder resolve greeting (handleSendMessage mt now st).
Proof.
  intros [answered [Hu Hb]].
  destruct (truthy (orElse mt (trim (inputValue st)))) eqn:Ht.
  - destruct (userTexts_send mt now st Ht) as [Eu [Eb Et]].
    exists answered. rewrite Eu, Eb, Et, Hu, map_app, app_assoc. now split.
  - rewrite (handleSendMessage_blank _ _ _ Ht). now exists answered.
Qed.

Lemma RepliesInOrder_dispatch e now st st' :
  RepliesInOrder resolve greeting st ->
  dispatch resolve quick e now st = Some st' ->
  RepliesInOrder resolve greeting st'.
Proof.
  intros HR. destruct e as [v | key shiftKey | | i |]; simpl.
  - destruct (isTyping st); [discriminate|]. intros [= <-]. exact HR.
  - destruct (isTyping st); [discriminate|]. intros [= <-].
    unfold handleKeyPress. destruct (_ && _); [now apply RepliesInOrder_send | exact HR].
  - destruct (_ || _); [discriminate|]. intros [= <-]. now apply RepliesInOrder_send.
  - destruct (nth_error quick i); [|discriminate]. intros [= <-].
    now apply RepliesInOrder_send.
  - unfold fireTimer. destruct HR as [answered [Hu Hb]].
    destruct (timers st) as [|t rest]; [discriminate|].
    destruct (due t <=? now)%Z; [|discriminate]. intros [= <-].
    exists (answered ++ [captured t]). unfold userTexts, botTexts in *. simpl.
    rewrite !filter_app, !map_app. simpl. rewrite !app_nil_r, Hu, Hb. split.
    + simpl. now rewrite <- app_assoc.
    + reflexivity.
Qed.

Lemma RepliesInOrder_run trace clock st :
  run resolve quick clock (initial greeting clock) trace = Some st ->
  RepliesInOrder resolve greeting st.
Proof.
  apply (run_invariant resolve quick (RepliesInOrder resolve greeting)).
  - intros e now s s'. apply RepliesInOrder_dispatch.
  - now exists [].
Qed.

End Replies.

(** X3: replies come in the order of the messages they answer, one for
    each.  After any run from the initial state the bot's messages are
    the greeting followed by the resolver's replies to the first user
    messages, in order, and the user messages still unanswered are exactly
    the texts held by the registered callbacks, in order.  So bot messages
    plus outstanding callbacks number one more than the user messages, and
    when nothing is outstanding every user message has its reply. *)
Theorem replies_follow_messages_in_order
        (resolve : jsstring -> jsstring) (quick : list jsstring) (greeting : jsstring)
        (trace : list (Z * Event)) (clock : Z) (st : State) :
  run resolve quick clock (initial greeting clock) trace = Some st ->
  RepliesInOrder resolve greeting st /\
  (List.length (botTexts st) + List.length (timers st) =
   S (List.length (userTexts st)))%nat /\
  (timers st = [] -> botTexts st = greeting :: map resolve (userTexts st)).
Proof.
  intros H. pose proof (RepliesInOrder_run _ _ _ _ _ _ H) as HR.
  split; [exact HR|]. destruct HR as [answered [Hu Hb]]. split.
  - rewrite Hu, Hb. simpl. rewrite length_app, !length_map. lia.
  - intros Ht. rewrite Ht in Hu. simpl in Hu. rewrite app_nil_r in Hu.
    now rewrite Hb, Hu.
Qed.

Lemma replies_follow_messages_in_order_witness :
  exists st,
    (Support.exec (T := plainTable)) 1700000000000 (Support.start 1700000000000)
      [ (1700000000900, ClickQuick 0); (1700000001000, ClickQuick 1);
        (1700000002400, Fire); (1700000002500, Fire) ]%Z = Some st /\
    botTexts st = Support.greeting :: map (Support.getBotResponse (T := plainTable))
        (userTexts st).
Proof.
  eexists. split; [vm_compute; reflexivity|].
  match goal with
  | |- botTexts ?st = _ =>
      assert (H : run (Support.getBotResponse (T := plainTable))
          Support.quickActions 1700000000000
                      (initial Support.greeting 1700000000000)
                      [ (1700000000900, ClickQuick 0); (1700000001000, ClickQuick 1);
                        (1700000002400, Fire); (1700000002500, Fire) ]%Z = Some st)
        by (vm_compute; reflexivity);
      exact (proj2 (proj2 (replies_follow_messages_in_order _ _ _ _ _ _ H)) eq_refl)
  end.
Defined.

(** ** Outstanding replies *)

Lemma drain_timers resolve quick T l msgs inp ty :
  (forall t, In t l -> (due t <= T)%Z) ->
  run resolve quick T
      {| messages := msgs; inputValue := inp; isTyping := ty; timers := l |}
      (map (fun _ => (T, Fire)) l) =
  Some {| messages := msgs ++ map (botMessage resolve T) l;
          inputValue := inp;
          isTyping := match l with [] => ty | _ :: _ => false end;
          timers := [] |}.
Proof.
  revert msgs ty. induction l as [|t rest IH]; intros msgs ty Hd.
  - simpl. now rewrite app_nil_r.
  - cbn [map run]. rewrite Z.leb_refl. cbn [dispatch]. unfold fireTimer. cbn [timers].
    destruct (Z.leb_spec (due t) T) as [_|Hlt].
    + unfold timerCallback. cbn [messages inputValue timers].
      rewrite IH by (intros t' Ht'; apply Hd; now right).
      cbn [map]. rewrite <- app_assoc. cbn [app]. unfold botMessage at 2.
      now destruct rest.
    + specialize (Hd t (or_introl eq_refl)). lia.
Qed.

(** X4: no reply is lost.  From any state, once the delay of every
    registered callback has elapsed, the event loop can run them all, one
    after the other; that appends one bot message per callback, in
    registration order, each with the resolver's reply to the text the
    callback holds, leaves the input buffer as it is, and ends with no
    callback registered and (if there was one) the typing flag cleared. *)
Theorem outstanding_replies_all_arrive
        (resolve : jsstring -> jsstring) (quick : list jsstring) (T : Z) (st : State) :
  (forall t, In t (timers st) -> (due t <= T)%Z) ->
  run resolve quick T st (map (fun _ => (T, Fire)) (timers st)) =
  Some {| messages := messages st ++ map (botMessage resolve T) (timers st);
          inputValue := inputValue st;
          isTyping := match timers st with [] => isTyping st | _ :: _ => false end;
          timers := [] |}.
Proof.
  destruct st as [msgs inp ty l]. cbn [timers messages inputValue isTyping].
  apply drain_timers.
Qed.

Lemma outstanding_replies_all_arrive_witness :
  let st := {| messages := []; inputValue := js "draft"; isTyping := true;
               timers := [ {| due := 2400; captured := js "hello" |};
                           {| due := 2500; captured := js "bye" |} ] |} in
  run (Support.getBotResponse (T := plainTable))
      Support.quickActions 3000 st [(3000, Fire); (3000, Fire)]%Z =
  Some {| messages := [ botMessage (Support.getBotResponse (T := plainTable))
      3000 {| due := 2400; captured := js "hello" |};
                        botMessage (Support.getBotResponse (T := plainTable))
                            3000 {| due := 2500; captured := js "bye" |} ];
          inputValue := js "draft"; isTyping := false; timers := [] |}.
Proof.
  intros st.
  refine (outstanding_replies_all_arrive (Support.getBotResponse (T := plainTable))
      Support.quickActions
            3000%Z st _).
  intros t [<- | [<- | []]]; simpl; lia.
Defined.

(** ** The typing flag *)

Section Typing.

Variable resolve : jsstring -> jsstring.
Variable quick : list jsstring.

Lemma FlagFollowsNewest_send mt now st :
  FlagFollowsNewest st -> FlagFollowsNewest (handleSendMessage mt now st).
Proof.
  intros HF. unfold handleSendMessage.
  destruct (truthy (orElse mt (trim (inputValue st)))); simpl; [|exact HF].
  split.
  - now eexists _, _.
  - intros _. now destruct (timers st).
Qed.

Lemma FlagFollowsNewest_dispatch e now st st' :
  FlagFollowsNewest st -> dispatch resolve quick e now st = Some st' ->
  FlagFollowsNewest st'.
Proof.
  intros HF. destruct e as [v | key shiftKey | | i |]; simpl.
  - destruct (isTyping st); [discriminate|]. intros [= <-]. exact HF.
  - destruct (isTyping st); [discriminate|]. intros [= <-].
    unfold handleKeyPress. destruct (_ && _); [now apply FlagFollowsNewest_send | exact HF].
  - destruct (_ || _); [discriminate|]. intros [= <-]. now apply FlagFollowsNewest_send.
  - destruct (nth_error quick i); [|discriminate]. intros [= <-].
    now apply FlagFollowsNewest_send.
  - unfold fireTimer. destruct (timers st) as [|t rest]; [discriminate|].
    destruct (due t <=? now)%Z; [|discriminate]. intros [= <-]. split.
    + simpl. now eexists _, _.
    + discriminate.
Qed.

Lemma IdleOrTyping_dispatch e now st st' :
  IdleOrTyping st ->
  match e with ClickQuick _ => isTyping st = false | _ => True end ->
  dispatch resolve quick e now st = Some st' ->
  IdleOrTyping st'.
Proof.
  assert (Hs : forall mt, isTyping st = false -> timers st = [] ->
                          IdleOrTyping (handleSendMessage mt now st)).
  { intros mt Hi Ht. unfold handleSendMessage.
    destruct (truthy (orElse mt (trim (inputValue st)))); simpl.
    - right. rewrite Ht. split; [reflexivity | now eexists].
    - now left. }
  intros HI Hq. destruct e as [v | key shiftKey | | i |]; simpl.
  - destruct (isTyping st) eqn:Hi; [discriminate|]. intros [= <-].
    destruct HI as [[_ Ht] | [Hy _]]; [now left | congruence].
  - destruct (isTyping st) eqn:Hi; [discriminate|]. intros [= <-].
    destruct HI as [[_ Ht] | [Hy _]]; [|congruence].
    unfold handleKeyPress. destruct (_ && _); [now apply Hs | now left].
  - destruct (isTyping st) eqn:Hi; [rewrite orb_true_r; discriminate|].
    destruct (_ || _); [discriminate|]. intros [= <-].
    destruct HI as [[_ Ht] | [Hy _]]; [now apply Hs | congruence].
  - destruct (nth_error quick i); [|discriminate]. intros [= <-].
    destruct HI as [[_ Ht] | [Hy _]]; [now apply Hs | congruence].
  - unfold fireTimer. destruct HI as [[_ Ht] | [_ [t Ht]]]; rewrite Ht; [discriminate|].
    destruct (due t <=? now)%Z; [|discriminate]. intros [= <-]. now left.
Qed.

Lemma IdleOrTyping_run trace clock st st' :
  IdleOrTyping st ->
  quickOnlyWhenIdle resolve quick st trace = true ->
  run resolve quick clock st trace = Some st' ->
  IdleOrTyping st'.
Proof.
  revert clock st. induction trace as [|[now e] rest IH]; intros clock st HI Hq H.
  - simpl in H. now injection H as <-.
  - simpl in H, Hq. destruct (clock <=? now)%Z; [|discriminate].
    destruct (dispatch resolve quick e now st) as [st1|] eqn:Hd; [|discriminate].
    apply andb_true_iff in Hq as [Hq1 Hq2].
    apply (IH now st1); trivial.
    apply (IdleOrTyping_dispatch e now st); trivial.
    destruct e; trivial. now destruct (isTyping st).
Qed.

End Typing.

(** X5: the typing indicator follows the newest message.  After any run
    from the initial state the typing flag is set exactly when the newest
    message of the conversation is the user's, and whenever it is set a
    reply is outstanding. *)
Theorem typing_flag_follows_newest_message
        (resolve : jsstring -> jsstring) (quick : list jsstring) (greeting : jsstring)
        (trace : list (Z * Event)) (clock : Z) (st : State) :
  run resolve quick clock (initial greeting clock) trace = Some st ->
  (exists front m, messages st = (front ++ [m]) /\ isTyping st = isUser m) /\
  (isTyping st = true -> timers st <> []).
Proof.
  apply (run_invariant resolve quick FlagFollowsNewest).
  - intros e now s s'. apply FlagFollowsNewest_dispatch.
  - split; [|discriminate]. now exists [], {| id := js "1"; text := greeting; sender := bot; timestamp := clock |}.
Qed.

Lemma typing_flag_follows_newest_message_witness :
  exists st,
    run (Support.getBotResponse (T := plainTable)) Support.quickActions 1700000000000
        (initial Support.greeting 1700000000000)
        [ (1700000000900, ClickQuick 0); (1700000001000, ClickQuick 1);
          (1700000002400, Fire) ]%Z = Some st /\
    exists front m, messages st = (front ++ [m]) /\ isTyping st = isUser m.
Proof.
  eexists. split; [vm_compute; reflexivity|].
  refine (proj1 (typing_flag_follows_newest_message
                   (Support.getBotResponse (T := plainTable))
                       Support.quickActions Support.greeting
                   [ (1700000000900, ClickQuick 0); (1700000001000, ClickQuick 1);
                     (1700000002400, Fire) ]%Z 1700000000000%Z _ _)).
  vm_compute. reflexivity.
Defined.

(** X6: without a quick action clicked while the typing flag is set, the
    component is the two-state machine it is meant to be.  After any such
    run from the initial state either nothing is outstanding and the flag
    is clear, or the flag is set and exactly one reply is outstanding: the
    input and the send button cannot register a second callback. *)
Theorem one_reply_at_a_time_without_quick_actions
        (resolve : jsstring -> jsstring) (quick : list jsstring) (greeting : jsstring)
        (trace : list (Z * Event)) (clock : Z) (st : State) :
  quickOnlyWhenIdle resolve quick (initial greeting clock) trace = true ->
  run resolve quick clock (initial greeting clock) trace = Some st ->
  IdleOrTyping st /\ (List.length (timers st) <= 1)%nat.
Proof.
  intros Hq H.
  assert (HI : IdleOrTyping st).
  { apply (IdleOrTyping_run resolve quick trace clock (initial greeting clock)); trivial.
    now left. }
  split; [exact HI|].
  destruct HI as [[_ Ht] | [_ [t Ht]]]; rewrite Ht; simpl; lia.
Qed.

Lemma one_reply_at_a_time_without_quick_actions_witness :
  exists st,
    run (Support.getBotResponse (T := plainTable)) Support.quickActions 1700000000000
        (initial Support.greeting 1700000000000)
        [ (1700000000500, Change (js "where is my refund")); (1700000000900, ClickSend);
          (1700000002400, Fire); (1700000002500, ClickQuick 2) ]%Z = Some st /\
    IdleOrTyping st.
Proof.
  eexists. split; [vm_compute; reflexivity|].
  refine (proj1 (one_reply_at_a_time_without_quick_actions
                   (Support.getBotResponse (T := plainTable))
                       Support.quickActions Support.greeting
                   [ (1700000000500, Change (js "where is my refund")); (1700000000900, ClickSend);
                     (1700000002400, Fire); (1700000002500, ClickQuick 2) ]%Z
                   1700000000000%Z _ _ _)).
  - vm_compute. reflexivity.
  - vm_compute. reflexivity.
Defined.

(** ** The texts of the messages *)

Lemma trimStart_first s :
  match trimStart s with
  | [] => True
  | c :: _ => isSpace c = false
  end.
Proof.
  induction s as [|c s IH]; simpl; [exact I|].
  destruct (isSpace c) eqn:Hc; [exact IH | exact Hc].
Qed.

Lemma trimEnd_keeps_first c r :
  isSpace c = false -> exists r', trimEnd (c :: r) = c :: r'.
Proof.
  intros Hc. simpl. destruct (trimEnd r); rewrite ?Hc; now eexists.
Qed.

Lemma trimEnd_last u :
  match lastUnit (trimEnd u) with
  | Some c => isSpace c = false
  | None => trimEnd u = []
  end.
Proof.
  induction u as [|c u IH]; [reflexivity|].
  cbn [trimEnd]. destruct (trimEnd u) as [|y t].
  - destruct (isSpace c) eqn:Hc; [reflexivity | exact Hc].
  - change (lastUnit (c :: y :: t)) with (lastUnit (y :: t)).
    destruct (lastUnit (y :: t)); [exact IH | discriminate IH].
Qed.

(** What [trim] returns is empty or has no white space at either end. *)
Lemma trim_trimSafe s : trim s = [] \/ trimSafe (trim s) = true.
Proof.
  unfold trim. pose proof (trimStart_first s) as Hf.
  destruct (trimStart s) as [|c r]; [now left | right].
  destruct (trimEnd_keeps_first c r Hf) as [r' Hr].
  pose proof (trimEnd_last (c :: r)) as Hl. rewrite Hr in *.
  unfold trimSafe. rewrite Hf. simpl negb. cbn [andb].
  destruct (lastUnit (c :: r')) as [c'|]; [now rewrite Hl | discriminate].
Qed.

Lemma trimEnd_id u :
  match lastUnit u with
  | Some c => isSpace c = false
  | None => True
  end -> trimEnd u = u.
Proof.
  induction u as [|c u IH]; [reflexivity|].
  destruct u as [|y t].
  - simpl. now intros ->.
  - intros H. change (lastUnit (c :: y :: t)) with (lastUnit (y :: t)) in H.
    change (trimEnd (c :: y :: t)) with
      (match trimEnd (y :: t) with
       | [] => if isSpace c then [] else [c]
       | a :: b => c :: a :: b
       end).
    now rewrite (IH H).
Qed.

(** A text without white space at its ends is left as it is. *)
Lemma trim_of_trimSafe k : trimSafe k = true -> trim k = k.
Proof.
  unfold trimSafe, trim. destruct k as [|c r]; [discriminate|].
  intros H. apply andb_true_iff in H as [Hc Hl].
  cbn [trimStart]. destruct (isSpace c); [discriminate|].
  apply trimEnd_id. destruct (lastUnit (c :: r)) as [a|]; [|exact I].
  now destruct (isSpace a).
Qed.

Section Texts.

Variable resolve : jsstring -> jsstring.
Variable quick : list jsstring.
Hypothesis resolve_nonempty : forall s, resolve s <> [].
Hypothesis quick_trimSafe : forallb trimSafe quick = true.

Lemma WellFormed_send mt now st :
  match mt with Some q => trimSafe q = true | None => True end ->
  Forall WellFormed (messages st) ->
  Forall WellFormed (messages (handleSendMessage mt now st)).
Proof.
  intros Hq HW. unfold handleSendMessage.
  destruct (truthy (orElse mt (trim (inputValue st)))) eqn:Ht; simpl; [|exact HW].
  apply Forall_app. split; [exact HW|]. constructor; [|constructor].
  assert (Hs : trimSafe (orElse mt (trim (inputValue st))) = true).
  { destruct mt as [q|]; simpl in *.
    - now rewrite (proj2 (truthy_true_iff q) (trimSafe_nonempty _ Hq)).
    - destruct (trim_trimSafe (inputValue st)) as [E | E]; [|exact E].
      rewrite E in Ht. discriminate. }
  split; simpl; [now apply trimSafe_nonempty | now intros _].
Qed.

Lemma WellFormed_dispatch e now st st' :
  Forall WellFormed (messages st) ->
  dispatch resolve quick e now st = Some st' ->
  Forall WellFormed (messages st').
Proof.
  intros HW. destruct e as [v | key shiftKey | | i |]; simpl.
  - destruct (isTyping st); [discriminate|]. intros [= <-]. exact HW.
  - destruct (isTyping st); [discriminate|]. intros [= <-].
    unfold handleKeyPress. destruct (_ && _); [now apply WellFormed_send | exact HW].
  - destruct (_ || _); [discriminate|]. intros [= <-]. now apply WellFormed_send.
  - destruct (nth_error quick i) as [q|] eqn:Hq; [|discriminate]. intros [= <-].
    apply WellFormed_send; trivial.
    apply nth_error_In in Hq. exact (proj1 (forallb_forall _ _) quick_trimSafe _ Hq).
  - unfold fireTimer. destruct (timers st) as [|t rest]; [discriminate|].
    destruct (due t <=? now)%Z; [|discriminate]. intros [= <-]. simpl.
    apply Forall_app. split; [exact HW|]. constructor; [|constructor].
    split; simpl; [apply resolve_nonempty | discriminate].
Qed.

Lemma WellFormed_run greeting trace clock st :
  greeting <> [] ->
  run resolve quick clock (initial greeting clock) trace = Some st ->
  Forall WellFormed (messages st).
Proof.
  intros Hg. apply (run_invariant resolve quick (fun s => Forall WellFormed (messages s))).
  - intros e now s s'. apply WellFormed_dispatch.
  - constructor; [|constructor]. split; simpl; [exact Hg | discriminate].
Qed.

End Texts.

(** X7: every message of a conversation has a text.  After any run of
    either widget from its initial state, no message has an empty text,
    and the text of a user message neither starts nor ends with white
    space (it is a quick-action query or a trimmed input). *)
Theorem messages_are_well_formed {T : CaseTable} :
  (forall trace clock st,
      Support.exec clock (Support.start clock) trace = Some st ->
      Forall WellFormed (messages st)) /\
  (forall trace clock w,
      Nibbly.exec clock (Nibbly.start clock) trace = Some w ->
      Forall WellFormed (messages (Nibbly.chat w))).
Proof.
  split.
  - intros trace clock st H.
    apply (WellFormed_run Support.getBotResponse Support.quickActions
             support_reply_nonempty eq_refl Support.greeting trace clock);
      [discriminate | exact H].
  - intros trace clock w H. apply nibbly_exec_projects in H.
    apply (WellFormed_run Nibbly.getBotResponse Nibbly.quickActions
             nibbly_reply_nonempty eq_refl Nibbly.greeting (chatEvents trace) clock);
      [discriminate | exact H].
Qed.

Lemma messages_are_well_formed_witness :
  exists st,
    (Support.exec (T := plainTable)) 1700000000000 (Support.start 1700000000000)
      [ (1700000000500, Change (js "  refund, please  ")); (1700000000900, KeyPress (js "Enter") false);
        (1700000002400, Fire) ]%Z = Some st /\
    Forall WellFormed (messages st).
Proof.
  eexists. split; [vm_compute; reflexivity|].
  refine (proj1 (messages_are_well_formed (T := plainTable))
            [ (1700000000500, Change (js "  refund, please  "));
              (1700000000900, KeyPress (js "Enter") false); (1700000002400, Fire) ]%Z
            1700000000000%Z _ _).
  vm_compute. reflexivity.
Defined.

(** ** Message ids when events are spaced *)

Lemma js_inj (a b : string) : js a = js b -> a = b.
Proof.
  unfold js. intros H.
  assert (E : list_ascii_of_string a = list_ascii_of_string b).
  { revert H. generalize (list_ascii_of_string a), (list_ascii_of_string b).
    induction l as [|x l IH]; intros [|y l'] H; try discriminate; [reflexivity|].
    simpl in H. injection H as Hx Hl. f_equal; [|now apply IH].
    rewrite <- (ascii_N_embedding x), <- (ascii_N_embedding y). now rewrite Hx. }
  rewrite <- (string_of_list_ascii_of_string a), <- (string_of_list_ascii_of_string b).
  now rewrite E.
Qed.

Lemma numToString_inj a b :
  (0 < a)%Z -> (0 < b)%Z -> numToString a = numToString b -> a = b.
Proof.
  intros Ha Hb H. unfold numToString in H. apply js_inj in H.
  assert (P : forall z, (0 < z)%Z ->
                        NilZero.int_of_string (NilZero.string_of_int (Z.to_int z))
                        = Some (Z.to_int z)).
  { intros z Hz. destruct z as [|p|p]; try lia. apply NilZero.isi.
    - simpl. intros [= E]. exact (DecimalPos.Unsigned.to_uint_nonnil p E).
    - discriminate. }
  pose proof (P a Ha) as Pa. rewrite H, (P b Hb) in Pa.
  injection Pa as Pa. symmetry. now apply DecimalZ.to_int_inj.
Qed.

Lemma increasingFrom_snoc lo zs hi z :
  increasingFrom lo zs -> Forall (fun y => (y <= hi)%Z) zs ->
  (lo <= hi)%Z -> (hi < z)%Z -> increasingFrom lo (zs ++ [z]).
Proof.
  revert lo. induction zs as [|y zs IH]; intros lo Hi Hb Hl Hz; simpl.
  - split; [lia | exact I].
  - destruct Hi as [Hy Hi]. inversion Hb as [|? ? Hyh Hb']; subst.
    split; [exact Hy | now apply IH].
Qed.

Lemma increasingFrom_above lo zs :
  increasingFrom lo zs -> Forall (fun y => (lo < y)%Z) zs.
Proof.
  revert lo. induction zs as [|y zs IH]; intros lo Hi; constructor.
  - exact (proj1 Hi).
  - destruct Hi as [Hy Hi]. apply (Forall_impl _ (P := fun x => (y < x)%Z)); [|now apply IH].
    intros x Hx. lia.
Qed.

Lemma increasingFrom_NoDup lo zs :
  (0 <= lo)%Z -> increasingFrom lo zs -> NoDup (map numToString zs).
Proof.
  revert lo. induction zs as [|y zs IH]; intros lo Hl Hi; simpl; constructor.
  - destruct Hi as [Hy Hi]. intros Hin. apply in_map_iff in Hin as [x [E Hx]].
    pose proof (proj1 (Forall_forall _ _) (increasingFrom_above _ _ Hi) x Hx) as Hlt.
    cbv beta in Hlt. apply numToString_inj in E; lia.
  - destruct Hi as [Hy Hi]. apply (IH y); [lia | exact Hi].
Qed.

Section Ids.

Variable resolve : jsstring -> jsstring.
Variable quick : list jsstring.

(** The id an event gives to the message it appends, if it appends one. *)
Lemma dispatch_new_id e now st st' :
  dispatch resolve quick e now st = Some st' ->
  map id (messages st') = map id (messages st) \/
  exists z, (now <= z <= now + 1)%Z /\
            map id (messages st') = (map id (messages st) ++ [numToString z]).
Proof.
  assert (Hs : forall mt,
             map id (messages (handleSendMessage mt now st)) = map id (messages st) \/
             exists z, (now <= z <= now + 1)%Z /\
                       map id (messages (handleSendMessage mt now st)) =
                       (map id (messages st) ++ [numToString z])).
  { intros mt. unfold handleSendMessage.
    destruct (truthy (orElse mt (trim (inputValue st)))); simpl; [|now left].
    right. exists now. split; [lia|]. now rewrite map_app. }
  destruct e as [v | key shiftKey | | i |]; simpl.
  - destruct (isTyping st); [discriminate|]. intros [= <-]. now left.
  - destruct (isTyping st); [discriminate|]. intros [= <-].
    unfold handleKeyPress. destruct (_ && _); [apply Hs | now left].
  - destruct (_ || _); [discriminate|]. intros [= <-]. apply Hs.
  - destruct (nth_error quick i); [|discriminate]. intros [= <-]. apply Hs.
  - unfold fireTimer. destruct (timers st) as [|t rest]; [discriminate|].
    destruct (due t <=? now)%Z; [|discriminate]. intros [= <-].
    right. exists (now + 1)%Z. split; [lia|]. simpl. now rewrite map_app.
Qed.

Lemma spaced_run_ids trace clock st st' zs :
  map id (messages st) = map numToString zs ->
  increasingFrom 0 zs -> Forall (fun y => (y <= clock + 1)%Z) zs -> (0 <= clock)%Z ->
  spaced clock trace = true ->
  run resolve quick clock st trace = Some st' ->
  IdsIncrease st'.
Proof.
  revert clock st zs. induction trace as [|[now e] rest IH];
    intros clock st zs Hm Hi Hb Hc Hsp H.
  - simpl in H. injection H as <-. now exists zs.
  - simpl in H, Hsp. apply andb_true_iff in Hsp as [Hn Hsp]. apply Z.leb_le in Hn.
    destruct (clock <=? now)%Z; [|discriminate].
    destruct (dispatch resolve quick e now st) as [st1|] eqn:Hd; [|discriminate].
    assert (Hb' : Forall (fun y => (y <= now + 1)%Z) zs).
    { apply (Forall_impl _ (P := fun y => (y <= clock + 1)%Z)); [|exact Hb].
      intros y Hy. lia. }
    destruct (dispatch_new_id _ _ _ _ Hd) as [E | [z [Hz E]]].
    + apply (IH now st1 zs); trivial; [congruence | lia].
    + apply (IH now st1 (zs ++ [z])); trivial.
      * now rewrite E, Hm, map_app.
      * apply (increasingFrom_snoc 0 zs (clock + 1)); trivial; lia.
      * apply Forall_app. split; [exact Hb' | constructor; [lia | constructor]].
      * lia.
Qed.

End Ids.

(** X8: when the events of a run are at least two milliseconds apart,
    the ids are what they are meant to be.  After such a run from the
    initial state (started at a clock reading that is not negative) the
    ids are the numerals of strictly increasing integers, in conversation
    order, and so pairwise distinct. *)
Theorem ids_increase_when_events_are_spaced
        (resolve : jsstring -> jsstring) (quick : list jsstring) (greeting : jsstring)
        (trace : list (Z * Event)) (clock : Z) (st : State) :
  (0 <= clock)%Z ->
  spaced clock trace = true ->
  run resolve quick clock (initial greeting clock) trace = Some st ->
  IdsIncrease st /\ NoDup (map id (messages st)).
Proof.
  intros Hc Hsp H.
  assert (HI : IdsIncrease st).
  { apply (spaced_run_ids resolve quick trace clock (initial greeting clock) st [1%Z]);
      trivial.
    - simpl. split; [lia | exact I].
    - constructor; [lia | constructor]. }
  split; [exact HI|]. destruct HI as [zs [Hm Hi]]. rewrite Hm.
  apply (increasingFrom_NoDup 0); [lia | exact Hi].
Qed.

Lemma ids_increase_when_events_are_spaced_witness :
  exists st,
    run (Support.getBotResponse (T := plainTable)) Support.quickActions 1700000000000
        (initial Support.greeting 1700000000000)
        [ (1700000000900, ClickQuick 0); (1700000002400, Fire);
          (1700000002402, ClickQuick 1) ]%Z = Some st /\
    NoDup (map id (messages st)).
Proof.
  eexists. split; [vm_compute; reflexivity|].
  refine (proj2 (ids_increase_when_events_are_spaced
                   (Support.getBotResponse (T := plainTable))
                       Support.quickActions Support.greeting
                   [ (1700000000900, ClickQuick 0); (1700000002400, Fire);
                     (1700000002402, ClickQuick 1) ]%Z 1700000000000%Z _ _ _ _)).
  - lia.
  - reflexivity.
  - vm_compute. reflexivity.
Defined.

(** ** The ways to send *)

(** X9: a quick action is the same as typing its query and sending it.
    In either widget, when no reply is awaited, the click on a quick
    action leaves exactly the state that replacing the input buffer by
    the query and clicking the send button leaves; whatever was in the
    buffer before is discarded. *)
Theorem quick_action_is_typing_and_sending {T : CaseTable} (i : nat) (query : jsstring) (now : Z) (st : State) :
  isTyping st = false ->
  (nth_error Support.quickActions i = Some query ->
   Support.step (ClickQuick i) now st = Support.step ClickSend now (setInputValue query st)) /\
  (nth_error Nibbly.quickActions i = Some query ->
   dispatch Nibbly.getBotResponse Nibbly.quickActions (ClickQuick i) now st =
   dispatch Nibbly.getBotResponse Nibbly.quickActions ClickSend now (setInputValue query st)).
Proof.
  intros Hi.
  assert (G : forall resolve quick,
             forallb trimSafe quick = true -> nth_error quick i = Some query ->
             dispatch resolve quick (ClickQuick i) now st =
             dispatch resolve quick ClickSend now (setInputValue query st)).
  { intros resolve quick Hq Hn.
    pose proof (proj1 (forallb_forall _ _) Hq _ (nth_error_In _ _ Hn)) as Hs.
    pose proof (proj2 (truthy_true_iff query) (trimSafe_nonempty _ Hs)) as Ht.
    unfold dispatch, handleSendMessage, orElse. cbn [inputValue setInputValue isTyping
      messages timers].
    rewrite Hn, Hi, (trim_of_trimSafe _ Hs), Ht. cbn iota. now rewrite Ht. }
  split; intros Hn; apply G; trivial.
Qed.

Lemma quick_action_is_typing_and_sending_witness :
  (Support.step (T := plainTable))
      (ClickQuick 1) 1700000000900 (setInputValue (js "a draft") (Support.start 1700000000000)) =
  (Support.step (T := plainTable)) ClickSend 1700000000900
               (setInputValue (js "billing question")
                              (setInputValue (js "a draft") (Support.start 1700000000000))).
Proof.
  exact (proj1 ((quick_action_is_typing_and_sending (T := plainTable))
      1 (js "billing question") 1700000000900
                  (setInputValue (js "a draft") (Support.start 1700000000000)) eq_refl) eq_refl).
Defined.

(** X10: the Enter key is the send button.  When no reply is awaited,
    Enter without Shift leaves the state that a click on the send button
    leaves whenever that button is enabled (the trimmed buffer is not
    empty), and changes nothing when it is disabled; Enter with Shift and
    every other key change nothing. *)
Theorem enter_key_is_send_button
        (resolve : jsstring -> jsstring) (quick : list jsstring)
        (key : jsstring) (shiftKey : bool) (now : Z) (st : State) :
  isTyping st = false ->
  (key = js "Enter" -> shiftKey = false -> trim (inputValue st) <> [] ->
   dispatch resolve quick (KeyPress key shiftKey) now st =
   dispatch resolve quick ClickSend now st) /\
  (key = js "Enter" -> shiftKey = false -> trim (inputValue st) = [] ->
   dispatch resolve quick (KeyPress key shiftKey) now st = Some st /\
   dispatch resolve quick ClickSend now st = None) /\
  (key <> js "Enter" \/ shiftKey = true ->
   dispatch resolve quick (KeyPress key shiftKey) now st = Some st).
Proof.
  intros Hi. cbn [dispatch]. rewrite Hi, orb_false_r. unfold handleKeyPress.
  split; [|split].
  - intros -> -> Ht. apply truthy_true_iff in Ht. rewrite Ht.
    now rewrite (proj2 (strictEq_iff _ _) eq_refl).
  - intros -> -> Ht. rewrite (proj2 (strictEq_iff _ _) eq_refl).
    unfold handleSendMessage, orElse. rewrite Ht. now split.
  - intros [Hk | ->].
    + destruct (strictEq key (js "Enter")) eqn:E; [|reflexivity].
      apply strictEq_iff in E. contradiction.
    + now rewrite andb_false_r.
Qed.

Lemma enter_key_is_send_button_witness :
  let st := setInputValue (js " where is my order? ") (Support.start 1700000000000) in
  dispatch (Support.getBotResponse (T := plainTable))
      Support.quickActions (KeyPress (js "Enter") false)
           1700000000900 st =
  dispatch (Support.getBotResponse (T := plainTable))
      Support.quickActions ClickSend 1700000000900 st.
Proof.
  intros st.
  refine (proj1 (enter_key_is_send_button (Support.getBotResponse (T := plainTable))
      Support.quickActions
                   (js "Enter") false 1700000000900 st eq_refl) eq_refl eq_refl _).
  discriminate.
Defined.

(** * Further properties of the resolvers *)



(** X11: the reply stored under "shipping" can never be given.  The table
    of the support widget lists "hi" before "shipping", and "hi" occurs
    inside "shipping": an input that contains "shipping" is answered by
    the entry for "hi" or by an entry before it, and no input at all gets
    the shipping reply. *)
Theorem support_shipping_reply_is_shadowed {T : CaseTable} :
  (forall s, Substring (js "shipping") (toLowerCase s) ->
             exists i key, (i <= 4)%nat /\
                           EarliestTrigger Support.botResponses (toLowerCase s) i key
                                           (Support.getBotResponse s)) /\
  (exists r, storedUnder (js "shipping") Support.botResponses = Some r /\
             forall s, Support.getBotResponse s <> r).
Proof.
  assert (Hhi : forall m, Substring (js "shipping") m -> Substring (js "hi") m).
  { intros m. apply Substring_trans. now exists (js "s"), (js "pping"). }
  assert (P1 : forall s, Substring (js "shipping") (toLowerCase s) ->
                         exists i key, (i <= 4)%nat /\
                                       EarliestTrigger Support.botResponses (toLowerCase s) i key
                                                       (Support.getBotResponse s)).
  { intros s Hs. unfold Support.getBotResponse.
    destruct (firstMatch Support.botResponses (toLowerCase s)) as [r|] eqn:H.
    - destruct (firstMatch_Some _ _ _ H) as [i [key HE]]. exists i, key.
      split; [|exact HE]. destruct HE as [_ [_ He]].
      apply (He 4%nat (js "hi") _ eq_refl). now apply Hhi.
    - exfalso. apply (firstMatch_None _ _ H (js "hi") _ (nth_error_In Support.botResponses 4 eq_refl)).
      now apply Hhi. }
  split; [exact P1|]. eexists. split; [reflexivity|]. intros s E.
  unfold Support.getBotResponse in E.
  destruct (firstMatch Support.botResponses (toLowerCase s)) as [r|] eqn:H.
  - destruct (firstMatch_key _ _ _ H) as [key [Hin Hinc]]. subst r. simpl in Hin.
    assert (Hk : key = (js "shipping")).
    { repeat (destruct Hin as [Hin | Hin];
              [pose proof (f_equal fst Hin) as Hkey; pose proof (f_equal snd Hin) as Hr;
               simpl in Hkey, Hr; first [discriminate Hr | now symmetry] |]).
      contradiction. }
    subst key. apply includes_iff in Hinc.
    destruct (P1 s Hinc) as [i [key [Hi [Hn _]]]].
    unfold Support.getBotResponse in Hn. rewrite H in Hn.
    do 5 (destruct i as [|i]; [discriminate Hn|]). lia.
  - pose proof (support_keywordReply_cases (toLowerCase s)) as Hin.
    rewrite E in Hin. simpl in Hin.
    repeat (destruct Hin as [Hin | Hin]; [discriminate Hin |]). contradiction.
Qed.

Lemma not_and_includes a b m :
  ~ (Substring a m /\ Substring b m) -> includes a m && includes b m = false.
Proof.
  intros H. destruct (includes a m) eqn:Ea, (includes b m) eqn:Eb; trivial.
  exfalso. apply H. split; now apply includes_iff.
Qed.

(** X12: when the default reply is given.  The support widget gives its
    default reply exactly when the lower-cased input contains no trigger
    of the table, not both "order" and "status", and none of "cancel",
    "thank" and "bye".  The Nibbly widget gives its default reply exactly
    when the input has no order code and its lower-cased form contains no
    trigger of the table, not both "drone" and "where", and none of "eta",
    "when", "arrive", "thank" and "bye".  (The tests for "cancelled",
    "goodbye" and, after the table walk, "location" decide nothing.) *)
Theorem default_reply_exactly_when_nothing_matches {T : CaseTable} (s : jsstring) :
  (Support.getBotResponse s = Support.defaultReply <->
   (forall key response, In (key, response) Support.botResponses ->
                         ~ Substring key (toLowerCase s)) /\
   ~ (Substring (js "order") (toLowerCase s) /\ Substring (js "status") (toLowerCase s)) /\
   ~ Substring (js "cancel") (toLowerCase s) /\
   ~ Substring (js "thank") (toLowerCase s) /\
   ~ Substring (js "bye") (toLowerCase s)) /\
  (Nibbly.getBotResponse s = Nibbly.defaultReply <->
   ~ HasCode s /\
   (forall key response, In (key, response) Nibbly.botResponses ->
                         ~ Substring key (toLowerCase s)) /\
   ~ (Substring (js "drone") (toLowerCase s) /\ Substring (js "where") (toLowerCase s)) /\
   ~ Substring (js "eta") (toLowerCase s) /\
   ~ Substring (js "when") (toLowerCase s) /\
   ~ Substring (js "arrive") (toLowerCase s) /\
   ~ Substring (js "thank") (toLowerCase s) /\
   ~ Substring (js "bye") (toLowerCase s)).
Proof.
  set (m := toLowerCase s). split; split.
  - intros E. unfold Support.getBotResponse in E. fold m in E.
    destruct (firstMatch Support.botResponses m) as [r|] eqn:H.
    + exfalso. pose proof (firstMatch_In _ _ _ H) as Hin. rewrite E in Hin.
      unfold replies in Hin. simpl in Hin.
      repeat (destruct Hin as [Hin | Hin]; [discriminate Hin |]). contradiction.
    + split; [exact (firstMatch_None _ _ H)|].
      unfold Support.keywordReply in E.
      destruct (includes (js "order") m) eqn:E1, (includes (js "status") m) eqn:E2,
               (includes (js "cancel") m) eqn:E3, (includes (js "cancelled") m) eqn:E4,
               (includes (js "thank") m) eqn:E5, (includes (js "bye") m) eqn:E6,
               (includes (js "goodbye") m) eqn:E7; try discriminate E;
        rewrite includes_false_iff in *; tauto.
  - intros [Ht [Hos [Hc [Hth Hb]]]]. unfold Support.getBotResponse. fold m.
    rewrite (firstMatch_None_intro _ _ Ht). unfold Support.keywordReply.
    rewrite (not_and_includes _ _ _ Hos).
    rewrite (proj2 (includes_false_iff (js "cancel") m) Hc),
            (proj2 (includes_false_iff (js "thank") m) Hth),
            (proj2 (includes_false_iff (js "bye") m) Hb).
    assert (H1 : includes (js "cancelled") m = false).
    { apply includes_false_iff. intros H. apply Hc.
      apply (Substring_trans (js "cancel") (js "cancelled") m);
        [now exists [], (js "led") | exact H]. }
    assert (H2 : includes (js "goodbye") m = false).
    { apply includes_false_iff. intros H. apply Hb.
      apply (Substring_trans (js "bye") (js "goodbye") m);
        [now exists (js "good"), [] | exact H]. }
    now rewrite H1, H2.
  - intros E. unfold Nibbly.getBotResponse in E. fold m in E.
    destruct (Nibbly.orderMatch m) as [x|] eqn:Hx.
    + exfalso. apply (trackingReply_not_canned (toUpperCase x)). rewrite E.
      apply in_app_r_list. simpl. tauto.
    + split.
      { intros Hc. apply HasCode_orderMatch in Hc. destruct Hc as [x' Hx'].
        fold m in Hx'. congruence. }
      destruct (firstMatch Nibbly.botResponses m) as [r|] eqn:H.
      * exfalso. pose proof (firstMatch_In _ _ _ H) as Hin. rewrite E in Hin.
        unfold replies in Hin. simpl in Hin.
        repeat (destruct Hin as [Hin | Hin]; [discriminate Hin |]). contradiction.
      * split; [exact (firstMatch_None _ _ H)|].
        unfold Nibbly.keywordReply in E.
        destruct (includes (js "drone") m) eqn:E1, (includes (js "where") m) eqn:E2,
                 (includes (js "location") m) eqn:E3, (includes (js "eta") m) eqn:E4,
                 (includes (js "when") m) eqn:E5, (includes (js "arrive") m) eqn:E6,
                 (includes (js "thank") m) eqn:E7, (includes (js "bye") m) eqn:E8,
                 (includes (js "goodbye") m) eqn:E9; try discriminate E;
          rewrite includes_false_iff in *; tauto.
  - intros [Hn [Ht [Hdw [He [Hw [Ha [Hth Hb]]]]]]]. unfold Nibbly.getBotResponse. fold m.
    assert (Hx : Nibbly.orderMatch m = None).
    { destruct (Nibbly.orderMatch m) as [x|] eqn:Hx; [|reflexivity].
      exfalso. apply Hn, HasCode_orderMatch. now exists x. }
    rewrite Hx, (firstMatch_None_intro _ _ Ht). unfold Nibbly.keywordReply.
    assert (Hl : includes (js "location") m = false).
    { apply includes_false_iff. apply (Ht (js "location") _ (nth_error_In Nibbly.botResponses 8 eq_refl)). }
    rewrite Hl, orb_false_r, (not_and_includes _ _ _ Hdw).
    rewrite (proj2 (includes_false_iff (js "eta") m) He),
            (proj2 (includes_false_iff (js "when") m) Hw),
            (proj2 (includes_false_iff (js "arrive") m) Ha),
            (proj2 (includes_false_iff (js "thank") m) Hth),
            (proj2 (includes_false_iff (js "bye") m) Hb).
    assert (H2 : includes (js "goodbye") m = false).
    { apply includes_false_iff. intros H. apply Hb.
      apply (Substring_trans (js "bye") (js "goodbye") m);
        [now exists (js "good"), [] | exact H]. }
    now rewrite H2.
Qed.

(** X13 (Nibbly): when the drone-location hint is given.  The reply that
    asks for the order number to locate the drone is given exactly when
    the input has no order code and its lower-cased form contains no
    trigger of the table but both "drone" and "where".  An input with
    "drone" and "location" never gets it: "location" is a trigger of the
    table, which is walked first. *)
Theorem drone_hint_needs_where {T : CaseTable} (s : jsstring) :
  (Nibbly.getBotResponse s = Nibbly.droneWhereReply <->
   ~ HasCode s /\
   (forall key response, In (key, response) Nibbly.botResponses ->
                         ~ Substring key (toLowerCase s)) /\
   Substring (js "drone") (toLowerCase s) /\ Substring (js "where") (toLowerCase s)) /\
  (Substring (js "location") (toLowerCase s) ->
   Nibbly.getBotResponse s <> Nibbly.droneWhereReply).
Proof.
  set (m := toLowerCase s).
  assert (A : Nibbly.getBotResponse s = Nibbly.droneWhereReply ->
              ~ HasCode s /\
              (forall key response, In (key, response) Nibbly.botResponses ->
                                    ~ Substring key m) /\
              Substring (js "drone") m /\ Substring (js "where") m).
  { intros E. unfold Nibbly.getBotResponse in E. fold m in E.
    destruct (Nibbly.orderMatch m) as [x|] eqn:Hx.
    - exfalso. apply (trackingReply_not_canned (toUpperCase x)). rewrite E.
      apply in_app_r_list. simpl. tauto.
    - split.
      { intros Hc. apply HasCode_orderMatch in Hc. destruct Hc as [x' Hx'].
        fold m in Hx'. congruence. }
      destruct (firstMatch Nibbly.botResponses m) as [r|] eqn:H.
      + exfalso. pose proof (firstMatch_In _ _ _ H) as Hin. rewrite E in Hin.
        unfold replies in Hin. simpl in Hin.
        repeat (destruct Hin as [Hin | Hin]; [discriminate Hin |]). contradiction.
      + split; [exact (firstMatch_None _ _ H)|].
        pose proof (firstMatch_None _ _ H (js "location") _
                      (nth_error_In Nibbly.botResponses 8 eq_refl)) as Hl.
        apply includes_false_iff in Hl.
        unfold Nibbly.keywordReply in E. rewrite Hl, orb_false_r in E.
        destruct (includes (js "drone") m) eqn:E1, (includes (js "where") m) eqn:E2;
          try (split; now apply includes_iff);
          exfalso; simpl in E;
          repeat match type of E with
                 | context [if ?b then _ else _] => destruct b
                 end; discriminate E. }
  split; [split; [exact A|] |].
  - intros [Hn [Ht [Hd Hw]]]. unfold Nibbly.getBotResponse. fold m.
    assert (Hx : Nibbly.orderMatch m = None).
    { destruct (Nibbly.orderMatch m) as [x|] eqn:Hx; [|reflexivity].
      exfalso. apply Hn, HasCode_orderMatch. now exists x. }
    rewrite Hx, (firstMatch_None_intro _ _ Ht). unfold Nibbly.keywordReply.
    apply includes_iff in Hd, Hw. now rewrite Hd, Hw.
  - intros Hl E. destruct (A E) as [_ [Ht _]].
    exact (Ht (js "location") _ (nth_error_In Nibbly.botResponses 8 eq_refl) Hl).
Qed.

(** X14: white space around the text never changes the reply, for either
    resolver: the trimmed text and the text itself get the same reply. *)
Theorem reply_ignores_surrounding_white_space {T : CaseTable} (s : jsstring) :
  Support.getBotResponse (trim s) = Support.getBotResponse s /\
  Nibbly.getBotResponse (trim s) = Nibbly.getBotResponse s.
Proof. split; [apply support_reply_trim | apply nibbly_reply_trim]. Qed.

Lemma toUpperCase_length s : List.length (toUpperCase s) = List.length s.
Proof. apply length_map. Qed.

(** The tracking reply tells the order number it is about. *)
Lemma trackingReply_inj (c1 c2 : jsstring) :
  List.length c1 = 4%nat -> List.length c2 = 4%nat ->
  Nibbly.trackingReply c1 = Nibbly.trackingReply c2 -> c1 = c2.
Proof.
  intros L1 L2 E.
  destruct (trackingReply_cases c1) as [[d1 [_ E1]] | [_ E1]];
    destruct (trackingReply_cases c2) as [[d2 [_ E2]] | [_ E2]];
    rewrite E1, E2 in E; unfold Nibbly.trackingFound, Nibbly.trackingNotFound in E.
  - do 2 apply app_inv_head in E. apply append_same_length in E; [tauto | congruence].
  - apply (f_equal (hd 0)) in E. vm_compute in E. discriminate E.
  - apply (f_equal (hd 0)) in E. vm_compute in E. discriminate E.
  - apply app_inv_head in E. apply append_same_length in E; [tauto | congruence].
Qed.

(** X15 (Nibbly): with an order code in the input, the reply depends on
    the first code alone.  Two inputs whose first order codes are the same
    up to letter case get the same reply, whatever else they contain, and
    two inputs whose first order codes differ get different replies. *)
Theorem tracking_reply_depends_on_first_code_only {T : CaseTable} (s1 s2 x1 x2 : jsstring) :
  LeftmostCode s1 x1 -> LeftmostCode s2 x2 ->
  (Nibbly.getBotResponse s1 = Nibbly.getBotResponse s2 <->
   toUpperCase x1 = toUpperCase x2).
Proof.
  intros H1 H2.
  rewrite (nibbly_reply_leftmost _ _ H1), (nibbly_reply_leftmost _ _ H2). split.
  - apply trackingReply_inj; rewrite toUpperCase_length; apply IsCode_length.
    + now destruct H1 as [? [? [_ [C _]]]].
    + now destruct H2 as [? [? [_ [C _]]]].
  - now intros ->.
Qed.

Lemma tracking_reply_depends_on_first_code_only_witness :
  (Nibbly.getBotResponse (T := plainTable)) (js "n002") =
  (Nibbly.getBotResponse (T := plainTable)) (js "Hello, where is N002? Not N001. Thanks").
Proof.
  refine (proj2 ((tracking_reply_depends_on_first_code_only (T := plainTable))
                   (js "n002") (js "Hello, where is N002? Not N001. Thanks") (js "n002") (js "N002") _ _)
                eq_refl).
  - apply orderMatch_leftmost. reflexivity.
  - apply orderMatch_leftmost. reflexivity.
Defined.
